(** * HPS solver (hahps / hps): leaf solves, upward pass, dispatch and chunking

    A shallow embedding of the parts of the repository that the
    specification talks about:

    - [src/hahps/local_solve/_uniform_2D_DtN.py]   (coefficient gathering,
      operator assembly, the DtN leaf solve);
    - [src/hahps/local_solve/_uniform_2D_ItI.py]   (the ItI leaf solve);
    - [src/hahps/up_pass/_uniform_2D_ItI.py]       (upward pass);
    - [src/hahps/_solve.py]                        (dispatch of [solve]);
    - [hps/src/methods/fused_methods.py]           (chunk loop);
    - [hps/src/wave_scattering_utils.py]           (DtN map from an ItI map,
      batches of sources);
    - [tests/test_solve.py]                        (the shapes asserted for
      the root S-map).

    Dense per-leaf linear algebra is modelled with MathComp matrices over an
    arbitrary field [F] (exact arithmetic in place of float64/complex128);
    boundary vectors that the code slices, flips and re-indexes are modelled
    as sequences, like the jax arrays they stand for. *)

From HB Require Import structures.
From mathcomp Require Import boot.
From mathcomp Require Import ssralg ssrnum ssrint rat matrix algC.
From Stdlib Require Import Lia.

Set Implicit Arguments.
Unset Strict Implicit.
Unset Printing Implicit Defensive.

Import GRing.Theory.
Local Open Scope ring_scope.

(* ------------------------------------------------------------------ *)
(** ** Exceptions and results *)

(** The Python exceptions that the modelled code can raise.  Each
    constructor names the site that raises it. *)
Inductive exn : Type :=
  | ValueError_source_unsupported   (* _solve.py, guard of [solve]          *)
  | ValueError_adaptive_needs_list  (* _solve.py, [_adaptive_solve]         *)
  | ValueError_unpack               (* a, b, c = x.shape with len(shape)<>3 *)
  | ValueError_squeeze              (* jnp.squeeze on an axis of size <> 1   *)
  | ValueError_vmap                 (* jax.vmap: rank or axis-size mismatch  *)
  | ValueError_stack                (* jnp.array of arrays of unequal shapes *)
  | ValueError_reshape              (* reshape to an incompatible size       *)
  | IndexError_axis                 (* x[..., 0] on an axis of size 0        *)
  | IndexError_list                 (* list index out of range               *)
  | ValueError_concatenate          (* jnp.concatenate of an empty list      *)
  | AttributeError_none             (* attribute access on None              *)
  | ZeroDivisionError.              (* integer division by zero              *)

Definition result (T : Type) : Type := (exn + T)%type.

Definition ret {T : Type} (x : T) : result T := inr x.
Definition raise {T : Type} (e : exn) : result T := inl e.
Definition bind {T U : Type} (m : result T) (f : T -> result U) : result U :=
  match m with inl e => inl e | inr x => f x end.

Notation "'do' x <- m ; f" := (bind m (fun x => f))
  (at level 200, x pattern, m at level 100, f at level 200,
   format "'[v' 'do'  x  <-  m ; '/' f ']'").

Fixpoint mapM {T U : Type} (f : T -> result U) (s : seq T) : result (seq U) :=
  if s is x :: s' then
    do y <- f x; do ys <- mapM f s'; ret (y :: ys)
  else ret [::].

(** [jax.lax.fori_loop(lo, hi, body, init)]. *)
Definition fori_loop {T : Type} (lo hi : nat) (body : nat -> T -> T) (init : T) : T :=
  foldl (fun carry i => body i carry) init (iota lo (hi - lo)).

(* ------------------------------------------------------------------ *)
(** ** Leaf-level dense linear algebra *)

Section LeafOperators.

Variable F : fieldType.

(** [M.at[:m1].set(X)] and [M.at[m1:].set(X)] on a matrix whose rows are
    split as [m1 + m2]. *)
Definition at_upto_set (m1 m2 n : nat) (M : 'M[F]_(m1 + m2, n)) (X : 'M[F]_(m1, n)) :
  'M[F]_(m1 + m2, n) := col_mx X (dsubmx M).

Definition at_from_set (m1 m2 n : nat) (M : 'M[F]_(m1 + m2, n)) (X : 'M[F]_(m2, n)) :
  'M[F]_(m1 + m2, n) := col_mx (usubmx M) X.

Section Assemble.


(** [n] is the number of Chebyshev nodes of a leaf (p**2 in 2D). *)
Variable n : nat.

(** A batch array of shape (n_leaves, n) is the sequence of its per-leaf
    columns. *)
Definition batch : Type := seq 'cV[F]_n.

(** [jnp.array(arrays)] for a list of arrays of shape (n_leaves, n): the
    arrays are stacked along a new leading axis, which needs them to have
    one shape.  Of an empty list it makes an array of shape (0,). *)
Definition jnp_array (arrays : seq batch) : result (seq batch) :=
  if all (fun a => size a == size (head [::] arrays)) arrays then ret arrays
  else raise ValueError_stack.

(** *** _uniform_2D_DtN.py : _gather_coeffs_2D

    [gather_coeffs] is the body of the function once [coeffs_lst] is
    built. *)
Definition gather_coeffs (coeffs_lst : seq (option batch)) : result (seq batch * seq bool) :=
  let which_coeffs := [seq isSome coeff | coeff <- coeffs_lst] in
  do coeffs_gathered <- jnp_array (pmap id coeffs_lst);
  ret (coeffs_gathered, which_coeffs).

Definition _gather_coeffs_2D
  (D_xx_coeffs D_xy_coeffs D_yy_coeffs D_x_coeffs D_y_coeffs I_coeffs : option batch) :
  result (seq batch * seq bool) :=
  let coeffs_lst :=
    [:: D_xx_coeffs; D_xy_coeffs; D_yy_coeffs; D_x_coeffs; D_y_coeffs; I_coeffs] in
  gather_coeffs coeffs_lst.

(** [jnp.einsum("ab,a->ab", diff_op, coeff)]: row [a] of [diff_op] scaled by
    [coeff[a]]. *)
Definition einsum_ab_a (diff_op : 'M[F]_n) (coeff : 'cV[F]_n) : 'M[F]_n :=
  \matrix_(a, b) (diff_op a b * coeff a 0).

Definition _add (out : 'M[F]_n) (coeff : 'cV[F]_n) (diff_op : 'M[F]_n) : 'M[F]_n :=
  out + einsum_ab_a diff_op coeff.

Definition _not (out : 'M[F]_n) (coeff : 'cV[F]_n) (diff_op : 'M[F]_n) : 'M[F]_n :=
  out.

Definition carry_t : Type :=
  ('M[F]_n * seq 'cV[F]_n * seq 'M[F]_n * seq bool * nat)%type.

(** Body of the loop of [assemble_diff_operator].  The function runs under
    [jax.vmap] only, with at least one row in [coeffs_arr]; there, indexing
    past the last row inside jit clamps and does not raise, and the value
    read is only ever passed to [_not], so [nth] with a default is used. *)
Definition add_or_not (i : nat) (carry_tuple : carry_t) : carry_t :=
  let '(out, coeffs_arr, diff_ops, which_coeffs, counter) := carry_tuple in
  let out :=
    (if nth false which_coeffs i then _add else _not)
      out (nth 0 coeffs_arr counter) (nth 0 diff_ops i) in
  let counter := if nth false which_coeffs i then counter.+1 else counter in
  (out, coeffs_arr, diff_ops, which_coeffs, counter).

Definition assemble_diff_operator
  (coeffs_arr : seq 'cV[F]_n) (which_coeffs : seq bool) (diff_ops : seq 'M[F]_n) : 'M[F]_n :=
  let n_loops := size which_coeffs in
  let out : 'M[F]_n := 0 in
  let counter := 0%N in
  let init_val := (out, coeffs_arr, diff_ops, which_coeffs, counter) in
  let '(out, _, _, _, _) := fori_loop 0 n_loops add_or_not init_val in
  out.

(** The sum that the loop computes, term by term: the operator
    A = sum_k diag(coeff_k) D_k over the terms that are present, the k-th
    entry of [coeffs] standing for term [i + k]. *)
Fixpoint sum_present_terms (diff_ops : seq 'M[F]_n) (i : nat)
  (coeffs : seq (option 'cV[F]_n)) : 'M[F]_n :=
  if coeffs is coeff :: coeffs' then
    (if coeff is Some c then einsum_ab_a (nth 0 diff_ops i) c else 0)
    + sum_present_terms diff_ops i.+1 coeffs'
  else 0.

(** [leaf_slice l] is what [jax.vmap(..., in_axes=(1, None, None))] hands
    to the mapped function for leaf [l]: [coeffs_gathered[:, l, :]]. *)
Definition leaf_slice (l : nat) (coeffs_gathered : seq batch) : seq 'cV[F]_n :=
  [seq nth 0 coeff l | coeff <- coeffs_gathered].

(** [vmapped_assemble_diff_operator]: the leaf axis is axis 1 of
    [coeffs_gathered].  When nothing was gathered the array has shape
    (0,), and vmap refuses to map axis 1 of an array of rank 1. *)
Definition vmapped_assemble_diff_operator
  (coeffs_gathered : seq batch) (which_coeffs : seq bool)
  (diff_ops : seq 'M[F]_n) : result (seq 'M[F]_n) :=
  if coeffs_gathered is coeff0 :: _ then
    ret [seq assemble_diff_operator (leaf_slice l coeffs_gathered) which_coeffs diff_ops
        | l <- iota 0 (size coeff0)]
  else raise ValueError_vmap.

(** The first half of the local solve stages
    ([local_solve_stage_uniform_2D_DtN], [local_solve_stage_uniform_2D_ItI]):
    the coefficients are gathered, and the operator of every leaf is
    assembled from them.  [gather_and_assemble_lst] is the same on the list
    of the six optional arrays. *)
Definition gather_and_assemble_lst (diff_ops : seq 'M[F]_n)
  (coeffs_lst : seq (option batch)) : result (seq 'M[F]_n) :=
  do gathered <- gather_coeffs coeffs_lst;
  let '(coeffs_gathered, which_coeffs) := gathered in
  vmapped_assemble_diff_operator coeffs_gathered which_coeffs diff_ops.

(** Every coefficient array that is present has [n_leaves] leaves. *)
Definition all_have_leaves (n_leaves : nat) (coeffs_lst : seq (option batch)) : bool :=
  all (fun coeff => if coeff is Some c then size c == n_leaves else true) coeffs_lst.

Definition gather_and_assemble (diff_ops : seq 'M[F]_n)
  (D_xx_coeffs D_xy_coeffs D_yy_coeffs D_x_coeffs D_y_coeffs I_coeffs : option batch) :
  result (seq 'M[F]_n) :=
  do gathered <-
    _gather_coeffs_2D D_xx_coeffs D_xy_coeffs D_yy_coeffs D_x_coeffs D_y_coeffs I_coeffs;
  let '(coeffs_gathered, which_coeffs) := gathered in
  vmapped_assemble_diff_operator coeffs_gathered which_coeffs diff_ops.

End Assemble.

(** *** _uniform_2D_DtN.py : get_DtN

    [nb] = n_cheby_bdry = P.shape[0], [ni] the number of interior Chebyshev
    nodes, [nq] the number of boundary Gauss nodes (4q).  [jnp.linalg.inv]
    is the matrix inverse [invmx]. *)
Section GetDtN.

Variables nb ni nq : nat.

Definition get_DtN
  (source_term : 'cV[F]_(nb + ni)) (diff_operator : 'M[F]_(nb + ni))
  (Q : 'M[F]_(nq, nb + ni)) (P : 'M[F]_(nb, nq)) :
  'M[F]_(nb + ni, nq) * 'M[F]_nq * 'cV[F]_(nb + ni) * 'cV[F]_nq :=
  let A_ii := drsubmx diff_operator in
  let A_ii_inv := invmx A_ii in
  let A_ie := dlsubmx diff_operator in
  let L_2 : 'M[F]_(nb + ni, nb) := 0 in
  let L_2 := at_upto_set L_2 1%:M in
  let soln_operator := ((-1) *: A_ii_inv) *m A_ie in
  let L_2 := at_from_set L_2 soln_operator in
  let Y := L_2 *m P in
  let T := Q *m Y in
  let v : 'cV[F]_(nb + ni) := 0 in
  let v := at_from_set v (A_ii_inv *m dsubmx source_term) in
  let h := Q *m v in
  (Y, T, v, h).

End GetDtN.

End LeafOperators.

(* ------------------------------------------------------------------ *)
(** ** Upward pass: up_pass/_uniform_2D_ItI.py : assemble_boundary_data

    Boundary data of a node is a sequence indexed by boundary point; the
    code slices it by side.  The function is indifferent to trailing axes
    (it is called with entries that are scalars in the tests and rows of
    length nsrc in the upward pass), so entries live in a module [E] over
    the scalars [R]. *)

Section BoundaryData.

Variable R : nzRingType.
Variable E : lmodType R.

(** [x[-k:]]; for k = 0 Python reads [x[0:]], the whole array. *)
Definition last_n (T : Type) (k : nat) (x : seq T) : seq T :=
  if k == 0%N then x else drop (size x - k) x.

(** [x[a:b]] for 0 <= a <= b. *)
Definition slice (T : Type) (a b : nat) (x : seq T) : seq T := drop a (take b x).

Definition flipud (T : Type) (x : seq T) : seq T := rev x.

(** [jnp.roll(x, -k, axis=0)]. *)
Definition roll_neg (T : Type) (k : nat) (x : seq T) : seq T := rot (k %% size x) x.

(** [jnp.arange(a, b)]. *)
Definition arange (a b : nat) : seq nat := iota a (b - a).

(** [c * M] for a scalar [c] and a matrix [M] given by its rows. *)
Definition scale_rows (c : R) (M : seq (seq R)) : seq (seq R) :=
  [seq [seq c * a | a <- row] | row <- M].

(** One row of [M @ x]. *)
Definition dot (row : seq R) (x : seq E) : E :=
  foldr (fun ae acc => ae.1 *: ae.2 + acc) 0 (zip row x).

(** [M @ x]. *)
Definition matvec (M : seq (seq R)) (x : seq E) : seq E := [seq dot row x | row <- M].

(** [x - y], entry by entry. *)
Definition vsub (x y : seq E) : seq E := [seq xy.1 - xy.2 | xy <- zip x y].

(** [x[r]] for an index array [r]. *)
Definition take_indices (x : seq E) (r : seq nat) : seq E := [seq nth 0 x i | i <- r].

(** The re-indexing array built inside [assemble_boundary_data]. *)
Definition reindex_r (nside : nat) : seq nat :=
  arange 0 nside                      (* a5 *)
  ++ arange (4 * nside) (5 * nside)   (* b5 *)
  ++ arange (5 * nside) (6 * nside)   (* b6 *)
  ++ arange (2 * nside) (3 * nside)   (* c6 *)
  ++ arange (3 * nside) (4 * nside)   (* c7 *)
  ++ arange (6 * nside) (7 * nside)   (* d7 *)
  ++ arange (7 * nside) (8 * nside)   (* d8 *)
  ++ arange nside (2 * nside).        (* a8 *)

(** The interior-interface and exterior parts that the function cuts out
    of the four children. *)
Definition h_int_child_of (nside : nat) (h_in : seq (seq E)) : seq E :=
  let h_a := nth [::] h_in 0 in
  let h_a_5 := slice nside (2 * nside) h_a in
  let h_a_8 := flipud (slice (2 * nside) (3 * nside) h_a) in
  let h_b := nth [::] h_in 1 in
  let h_b_6 := slice (2 * nside) (3 * nside) h_b in
  let h_b_5 := flipud (slice (3 * nside) (4 * nside) h_b) in
  let h_c := nth [::] h_in 2 in
  let h_c_6 := flipud (slice 0 nside h_c) in
  let h_c_7 := slice (3 * nside) (4 * nside) h_c in
  let h_d := nth [::] h_in 3 in
  let h_d_8 := slice 0 nside h_d in
  let h_d_7 := flipud (slice nside (2 * nside) h_d) in
  h_b_5 ++ h_d_8 ++ h_b_6 ++ h_d_7 ++ h_a_5 ++ h_c_6 ++ h_c_7 ++ h_a_8.

Definition h_ext_child_of (nside : nat) (h_in : seq (seq E)) : seq E :=
  let h_a := nth [::] h_in 0 in
  let h_a_1 := last_n nside h_a ++ slice 0 nside h_a in
  let h_b := nth [::] h_in 1 in
  let h_b_2 := slice 0 (2 * nside) h_b in
  let h_c := nth [::] h_in 2 in
  let h_c_3 := slice nside (3 * nside) h_c in
  let h_d := nth [::] h_in 3 in
  let h_d_4 := slice (2 * nside) (4 * nside) h_d in
  h_a_1 ++ h_b_2 ++ h_c_3 ++ h_d_4.

(** [assemble_boundary_data(h_in, D_inv, BD_inv)], returning [(h, g_tilde)].
    [h_in] has shape (4, 4 * nside), so [h_in.shape[1]] is the length of
    any of its rows. *)
Definition assemble_boundary_data
  (h_in : seq (seq E)) (D_inv BD_inv : seq (seq R)) : seq E * seq E :=
  let nside := (size (nth [::] h_in 0) %/ 4)%N in
  let h_int_child := h_int_child_of nside h_in in
  let h_ext_child := h_ext_child_of nside h_in in
  let g_tilde := matvec (scale_rows (-1) D_inv) h_int_child in
  let r := reindex_r nside in
  let g_tilde := take_indices g_tilde r in
  let h := vsub h_ext_child (matvec BD_inv h_ext_child) in
  let h := roll_neg nside h in
  (h, g_tilde).

End BoundaryData.

(* ------------------------------------------------------------------ *)
(** ** The ItI leaf solve, the problem object and the upward pass *)

Section Solver.

Variable F : fieldType.

(** Leaf sizes: [nb] boundary Chebyshev nodes (4(p-1)), [ni] interior
    Chebyshev nodes, [nq] boundary Gauss nodes (4q).  A leaf has
    [nb + ni] = p**2 Chebyshev nodes, boundary nodes first. *)
Variables nb ni nq : nat.

(** *** _uniform_2D_ItI.py : get_ItI *)
Definition get_ItI (nsrc : nat)
  (diff_operator : 'M[F]_(nb + ni)) (source_term : 'M[F]_(nb + ni, nsrc))
  (P : 'M[F]_(nb, nq)) (QH : 'M[F]_(nq, nb + ni)) (G : 'M[F]_(nb, nb + ni)) :
  'M[F]_nq * 'M[F]_(nb + ni, nq) * 'M[F]_(nq, nsrc) * 'M[F]_(nb + ni, nsrc) :=
  let A := diff_operator in
  let B : 'M[F]_(nb + ni) := 0 in
  let B := at_upto_set B G in
  let B := at_from_set B (dsubmx A) in
  let B_inv := invmx B in
  let Phi := rsubmx B_inv in
  let Y := lsubmx B_inv *m P in
  let source_int := dsubmx source_term in
  let v := Phi *m source_int in
  let h := QH *m v in
  let T := QH *m Y in
  (T, Y, h, v).

(** [jax.vmap(get_ItI, in_axes=(0, 0, None, None, None))]: both mapped
    arguments must have the same number of leaves. *)
Definition vmapped_get_ItI (nsrc : nat)
  (diff_operators : seq 'M[F]_(nb + ni)) (source_term : seq 'M[F]_(nb + ni, nsrc))
  (P : 'M[F]_(nb, nq)) (QH : 'M[F]_(nq, nb + ni)) (G : 'M[F]_(nb, nb + ni)) :
  result (seq ('M[F]_nq * 'M[F]_(nb + ni, nq) * 'M[F]_(nq, nsrc) * 'M[F]_(nb + ni, nsrc))) :=
  if size diff_operators == size source_term then
    ret [seq get_ItI os.1 os.2 P QH G | os <- zip diff_operators source_term]
  else raise ValueError_vmap.

(** [x[..., 0]] on a batch of matrices with [nsrc] columns: column 0 of
    each, an IndexError when the axis is empty. *)
Definition index_last_0 (m nsrc : nat) (x : seq 'M[F]_(m, nsrc)) : result (seq 'cV[F]_m) :=
  if insub 0%N : option 'I_nsrc is Some j0 then ret [seq col j0 A | A <- x]
  else raise IndexError_axis.

(** The source array of a problem has shape (n_leaves, p**2) or
    (n_leaves, p**2, nsrc). *)
Inductive source_array : Type :=
  | Source2 of seq 'cV[F]_(nb + ni)
  | Source3 (nsrc : nat) of seq 'M[F]_(nb + ni, nsrc).

Definition ndim (source : source_array) : nat :=
  match source with Source2 _ => 2 | Source3 _ _ => 3 end.

(** [jnp.expand_dims(source, axis=-1)]; the code applies it to arrays of
    rank 2 only. *)
Definition expand_dims_last (source : source_array) : source_array :=
  match source with
  | Source2 a => @Source3 1 a
  | Source3 _ _ => source
  end.

(** [source.shape[0]], the number of leaves of a source array. *)
Definition n_leaves_of (source : source_array) : nat :=
  match source with Source2 a => size a | Source3 _ a => size a end.

(** Arrays that travel through the upward pass have a rank that is only
    known at run time. *)
Record rank3 : Type := Rank3Arr { r3_nsrc : nat; r3_data : seq (seq 'rV[F]_r3_nsrc) }.

Inductive ndarray : Type :=
  | Rank1 of seq F
  | Rank2 of seq (seq F)
  | Rank3 of rank3.

Definition seq_of_col (m : nat) (c : 'cV[F]_m) : seq F := [seq c i 0 | i <- enum 'I_m].

(** A matrix of a merge level, by rows. *)
Definition smatrix : Type := seq (seq F).

Record Domain : Type := { bool_2D : bool; bool_uniform : bool }.

(** The attributes of [PDEProblem] that the modelled functions read or
    write.  The class itself is declared in [_pdeproblem.py]. *)
Record PDEProblem : Type := {
  domain : Domain;
  use_ItI : bool;
  D_xx_coefficients : option (seq 'cV[F]_(nb + ni));
  D_xy_coefficients : option (seq 'cV[F]_(nb + ni));
  D_yy_coefficients : option (seq 'cV[F]_(nb + ni));
  D_x_coefficients : option (seq 'cV[F]_(nb + ni));
  D_y_coefficients : option (seq 'cV[F]_(nb + ni));
  I_coefficients : option (seq 'cV[F]_(nb + ni));
  source : option source_array;
  D_xx : 'M[F]_(nb + ni);
  D_xy : 'M[F]_(nb + ni);
  D_yy : 'M[F]_(nb + ni);
  D_x : 'M[F]_(nb + ni);
  D_y : 'M[F]_(nb + ni);
  P : 'M[F]_(nb, nq);
  QH : 'M[F]_(nq, nb + ni);
  G : 'M[F]_(nb, nb + ni);
  S_lst : seq (seq smatrix);
  g_tilde_lst : seq ndarray;
  D_inv_lst : seq (seq smatrix);
  BD_inv_lst : seq (seq smatrix);
  Y : seq 'M[F]_(nb + ni, nq);
  v : ndarray
}.

(** [pde_problem.source = source]. *)
Definition set_source (pde_problem : PDEProblem) (new_source : source_array) : PDEProblem :=
  {| domain := domain pde_problem;
     use_ItI := use_ItI pde_problem;
     D_xx_coefficients := D_xx_coefficients pde_problem;
     D_xy_coefficients := D_xy_coefficients pde_problem;
     D_yy_coefficients := D_yy_coefficients pde_problem;
     D_x_coefficients := D_x_coefficients pde_problem;
     D_y_coefficients := D_y_coefficients pde_problem;
     I_coefficients := I_coefficients pde_problem;
     source := Some new_source;
     D_xx := D_xx pde_problem;
     D_xy := D_xy pde_problem;
     D_yy := D_yy pde_problem;
     D_x := D_x pde_problem;
     D_y := D_y pde_problem;
     P := P pde_problem;
     QH := QH pde_problem;
     G := G pde_problem;
     S_lst := S_lst pde_problem;
     g_tilde_lst := g_tilde_lst pde_problem;
     D_inv_lst := D_inv_lst pde_problem;
     BD_inv_lst := BD_inv_lst pde_problem;
     Y := Y pde_problem;
     v := v pde_problem |}.

(** *** _uniform_2D_ItI.py : local_solve_stage_uniform_2D_ItI

    [local_solve_rank3] is the part of the function after the source term
    has been given its trailing source axis. *)
Definition local_solve_rank3 (nsrc : nat)
  (all_diff_operators : seq 'M[F]_(nb + ni)) (source_term : seq 'M[F]_(nb + ni, nsrc))
  (pde_problem : PDEProblem) :
  result (seq 'M[F]_(nb + ni, nq) * seq 'M[F]_nq * seq 'cV[F]_(nb + ni) * seq 'cV[F]_nq) :=
  do out <- vmapped_get_ItI all_diff_operators source_term
              (P pde_problem) (QH pde_problem) (G pde_problem);
  let R_arr := [seq o.1.1.1 | o <- out] in
  let Y_arr := [seq o.1.1.2 | o <- out] in
  let h := [seq o.1.2 | o <- out] in
  let v := [seq o.2 | o <- out] in
  do h_arr_host <- index_last_0 h;
  do v_arr_host <- index_last_0 v;
  ret (Y_arr, R_arr, v_arr_host, h_arr_host).

Definition local_solve_stage_uniform_2D_ItI (pde_problem : PDEProblem) :
  result (seq 'M[F]_(nb + ni, nq) * seq 'M[F]_nq * seq 'cV[F]_(nb + ni) * seq 'cV[F]_nq) :=
  let source_term := source pde_problem in
  let diff_ops :=
    [:: D_xx pde_problem; D_xy pde_problem; D_yy pde_problem;
        D_x pde_problem; D_y pde_problem; 1%:M] in
  do all_diff_operators <-
    gather_and_assemble diff_ops
      (D_xx_coefficients pde_problem) (D_xy_coefficients pde_problem)
      (D_yy_coefficients pde_problem) (D_x_coefficients pde_problem)
      (D_y_coefficients pde_problem) (I_coefficients pde_problem);
  match source_term with
  | None => raise AttributeError_none
  | Some (Source2 a) => local_solve_rank3 (nsrc := 1) all_diff_operators a pde_problem
  | Some (Source3 nsrc a) => local_solve_rank3 all_diff_operators a pde_problem
  end.

(** *** up_pass/_uniform_2D_ItI.py : up_pass_uniform_2D_ItI *)

(** [x.reshape(nnodes // 4, 4, nbdry, nsrc)] on the node axis. *)
Fixpoint group4 (T : Type) (ngroups : nat) (x : seq T) : seq (seq T) :=
  if ngroups is k.+1 then take 4 x :: group4 k (drop 4 x) else [::].

(** [jax.vmap(assemble_boundary_data, in_axes=(0, 0, 0))]. *)
Definition vmapped_assemble_boundary_data (nsrc : nat)
  (h_in : seq (seq (seq 'rV[F]_nsrc))) (D_inv BD_inv : seq smatrix) :
  result (seq (seq 'rV[F]_nsrc) * seq (seq 'rV[F]_nsrc)) :=
  if (size h_in == size D_inv) && (size h_in == size BD_inv) then
    let out := [seq assemble_boundary_data hd.1 hd.2.1 hd.2.2
               | hd <- zip h_in (zip D_inv BD_inv)] in
    ret ([seq o.1 | o <- out], [seq o.2 | o <- out])
  else raise ValueError_vmap.

(** One turn of the loop [for i in range(len(D_inv_lst))]. *)
Definition up_pass_level (D_inv_lst BD_inv_lst : seq (seq smatrix)) (i : nat)
  (h_in : ndarray) : result (ndarray * rank3) :=
  match h_in with
  | Rank3 (Rank3Arr nsrc a) =>
      let nnodes := size a in
      let nbdry := size (head [::] a) in
      if (nnodes * nbdry * nsrc == (nnodes %/ 4) * 4 * nbdry * nsrc)%N then
        let h_in := group4 (nnodes %/ 4) a in
        let D_inv := nth [::] D_inv_lst i in
        if (i < size BD_inv_lst)%N then
          let BD_inv := nth [::] BD_inv_lst i in
          do hg <- vmapped_assemble_boundary_data h_in D_inv BD_inv;
          ret (Rank3 (Rank3Arr hg.1), Rank3Arr hg.2)
        else raise IndexError_list
      else raise ValueError_reshape
  | _ => raise ValueError_unpack
  end.

Definition up_pass_loop (h_in : ndarray) (D_inv_lst BD_inv_lst : seq (seq smatrix)) :
  result (ndarray * seq rank3) :=
  foldl
    (fun state i =>
       do hs <- state;
       do hg <- up_pass_level D_inv_lst BD_inv_lst i hs.1;
       ret (hg.1, rcons hs.2 hg.2))
    (ret (h_in, [::])) (iota 0 (size D_inv_lst)).

(** [jnp.squeeze(x, axis=-1)]. *)
Definition squeeze_cols (m : nat) (x : seq 'cV[F]_m) : result (seq F) :=
  if (m == 1%N, insub 0%N : option 'I_m) is (true, Some i0) then ret [seq (c : 'cV[F]_m) i0 0 | c <- x]
  else raise ValueError_squeeze.

Definition squeeze_rank3 (x : rank3) : result ndarray :=
  if (r3_nsrc x == 1%N, insub 0%N : option 'I_(r3_nsrc x)) is (true, Some j0) then
    ret (Rank2 [seq [seq (e : 'rV[F]__) 0 j0 | e <- node] | node <- r3_data x])
  else raise ValueError_squeeze.

(** The function mutates [pde_problem]; the problem object after the call
    is returned next to the result, also when the call raises. *)
Definition up_pass_uniform_2D_ItI (source : source_array) (pde_problem : PDEProblem) :
  PDEProblem * result (ndarray * seq ndarray) :=
  let bool_multi_source := ndim source == 3 in
  let source := if ~~ bool_multi_source then expand_dims_last source else source in
  let pde_problem := set_source pde_problem source in
  let D_inv_lst := D_inv_lst pde_problem in
  let BD_inv_lst := BD_inv_lst pde_problem in
  (pde_problem,
   do out <- local_solve_stage_uniform_2D_ItI pde_problem;
   let '(Y, T, v, h_in) := out in
   do hg <- up_pass_loop (Rank2 [seq seq_of_col c | c <- h_in]) D_inv_lst BD_inv_lst;
   let g_tilde_lst := hg.2 in
   if ~~ bool_multi_source then
     do v <- squeeze_cols v;
     do g_tilde_lst <- mapM squeeze_rank3 g_tilde_lst;
     ret (Rank1 v, g_tilde_lst)
   else ret (Rank2 [seq seq_of_col c | c <- v], [seq Rank3 g | g <- g_tilde_lst])).

(** *** _solve.py : solve

    The down-pass functions belong to [hahps.down_pass]; [solve] ends in a
    call to one of them, and that call, with its arguments, is what the
    model returns. *)
Inductive boundary : Type :=
  | BoundaryArray of seq F
  | BoundaryList of seq (seq F).

Inductive down_pass_fn : Type :=
  | down_pass_adaptive_2D_DtN
  | down_pass_adaptive_3D_DtN
  | down_pass_uniform_2D_DtN
  | down_pass_uniform_2D_ItI
  | down_pass_uniform_3D_DtN.

Inductive down_pass_call : Type :=
  | CallUniform (down_pass : down_pass_fn) (boundary_data : boundary)
      (S_lst : seq (seq smatrix)) (g_tilde_lst : seq ndarray)
      (Y_arr : seq 'M[F]_(nb + ni, nq)) (v_arr : ndarray)
  | CallAdaptive (down_pass : down_pass_fn) (pde_problem : PDEProblem)
      (boundary_data : seq (seq F)).

Definition _adaptive_solve (pde_problem : PDEProblem) (boundary_data_lst : boundary) :
  result down_pass_call :=
  match boundary_data_lst with
  | BoundaryArray _ => raise ValueError_adaptive_needs_list
  | BoundaryList lst =>
      let down_pass_fn :=
        if bool_2D (domain pde_problem) then down_pass_adaptive_2D_DtN
        else down_pass_adaptive_3D_DtN in
      ret (CallAdaptive down_pass_fn pde_problem lst)
  end.

Definition _up_then_down_pass (pde_problem : PDEProblem) (boundary_data : boundary)
  (source : source_array) : PDEProblem * result down_pass_call :=
  let '(pde_problem, up) := up_pass_uniform_2D_ItI source pde_problem in
  (pde_problem,
   do vg <- up;
   let '(v, g_tilde_lst) := vg in
   ret (CallUniform down_pass_uniform_2D_ItI boundary_data
          (S_lst pde_problem) g_tilde_lst (Y pde_problem) v)).

Definition solve (pde_problem : PDEProblem) (boundary_data : boundary)
  (source : option source_array) : PDEProblem * result down_pass_call :=
  match source with
  | Some source =>
      if ~~ bool_2D (domain pde_problem) || ~~ use_ItI pde_problem then
        (pde_problem, raise ValueError_source_unsupported)
      else _up_then_down_pass pde_problem boundary_data source
  | None =>
      if ~~ bool_uniform (domain pde_problem) then
        (pde_problem, _adaptive_solve pde_problem boundary_data)
      else
        (pde_problem,
         do boundary_data <-
           match boundary_data with
           | BoundaryList [::] => raise ValueError_concatenate
           | BoundaryList lst => ret (BoundaryArray (flatten lst))
           | BoundaryArray _ => ret boundary_data
           end;
         let down_pass_fn :=
           if use_ItI pde_problem then down_pass_uniform_2D_ItI
           else if bool_2D (domain pde_problem) then down_pass_uniform_2D_DtN
           else down_pass_uniform_3D_DtN in
         ret (CallUniform down_pass_fn boundary_data
                (S_lst pde_problem) (g_tilde_lst pde_problem)
                (Y pde_problem) (v pde_problem)))
  end.

End Solver.

(* ------------------------------------------------------------------ *)
(** ** Fused execution: hps/src/methods/fused_methods.py

    What the chunk loops of [_fused_local_solve_and_build_2D] and
    [_fused_local_solve_and_build_2D_ItI] hand to the local solve stage:
    for every call of the local solve, in order, the indices of the leaves
    in the slice [source_term[chunk_start_idx:chunk_end_idx]]. *)

Inductive dtype : Type := float64 | complex128.

Section Fused.

(** [get_fused_chunksize_2D(p, dtype, n_leaves)] is defined in
    [hps/src/config.py]; it returns [(chunksize, n_levels_fused)]. *)
Variable get_fused_chunksize_2D : nat -> dtype -> nat -> nat * nat.

(** The leaves of [x[chunk_start_idx:chunk_end_idx]] for an array with
    [n_leaves] rows. *)
Definition leaves_of_slice (n_leaves chunk_start_idx chunk_end_idx : nat) : seq nat :=
  slice chunk_start_idx chunk_end_idx (iota 0 n_leaves).

(** The loop [for i in range(0, n_chunks)]. *)
Definition chunk_loop (n_leaves chunksize n_chunks : nat) : seq (seq nat) :=
  [seq let chunk_start_idx := (i * chunksize)%N in
       let chunk_end_idx := minn ((i + 1) * chunksize) n_leaves in
       leaves_of_slice n_leaves chunk_start_idx chunk_end_idx
  | i <- iota 0 n_chunks].

Definition _fused_local_solve_and_build_2D (p n_leaves : nat) : result (seq (seq nat)) :=
  let '(chunksize, n_levels_fused) := get_fused_chunksize_2D p float64 n_leaves in
  if chunksize == 0%N then raise ZeroDivisionError
  else
    let n_chunks := (n_leaves %/ chunksize)%N in
    ret (chunk_loop n_leaves chunksize n_chunks).

Definition _fused_local_solve_and_build_2D_ItI (p n_leaves : nat) : result (seq (seq nat)) :=
  let '(chunksize, n_levels_fused) := get_fused_chunksize_2D p complex128 n_leaves in
  if chunksize == 0%N then raise ZeroDivisionError
  else
    let n_chunks := (n_leaves %/ chunksize)%N in
    if n_chunks == 1%N then ret [:: iota 0 n_leaves]
    else ret (chunk_loop n_leaves chunksize n_chunks).

End Fused.

(* ------------------------------------------------------------------ *)
(** ** Shapes of the merge-stage outputs kept by build_solver *)


(** [build_solver] and the merge stages ([hahps._build_solver],
    [hahps.merge]) are not among the source files; only their tests are.
    The definitions of this part follow the merge tree driver of the
    specification (groups of 4 nodes in 2D and of 8 in 3D, one list entry
    per level, a leaf boundary operator of size 4q or 6q**2).  Only the
    shapes of the arrays are modelled. *)










(* ------------------------------------------------------------------ *)
(** ** Example inputs *)

(** The identity matrix, by rows. *)
Definition identity_smatrix (R : nzRingType) (n : nat) : seq (seq R) :=
  [seq [seq (i == j)%:R | j <- iota 0 n] | i <- iota 0 n].

(** A 2D ItI problem on a tree of depth 1: four leaves with p = 3 (eight
    boundary and one interior Chebyshev node) and q = 1 (four boundary
    Gauss nodes), a constant coefficient for the identity term, no stored
    source, and the operators of one merge level. *)
Definition example_problem (uniform : bool) : PDEProblem rat 8 1 4 :=
  {| domain := {| bool_2D := true; bool_uniform := uniform |};
     use_ItI := true;
     D_xx_coefficients := None;
     D_xy_coefficients := None;
     D_yy_coefficients := None;
     D_x_coefficients := None;
     D_y_coefficients := None;
     I_coefficients := Some (nseq 4 (const_mx 1));
     source := None;
     D_xx := 0; D_xy := 0; D_yy := 0; D_x := 0; D_y := 0;
     P := 0; QH := 0; G := 0;
     S_lst := [:: [:: identity_smatrix rat 8]];
     g_tilde_lst := [::];
     D_inv_lst := [:: [:: identity_smatrix rat 8]];
     BD_inv_lst := [:: [:: identity_smatrix rat 8]];
     Y := [::];
     v := Rank1 [::] |}.

(** Four unmerged leaves on which the leaf solve is well posed: the
    operator is the identity, G reads the boundary Chebyshev nodes, and QH
    sums the nodes. *)
Definition example_problem_solvable : PDEProblem rat 8 1 4 :=
  {| domain := {| bool_2D := true; bool_uniform := true |};
     use_ItI := true;
     D_xx_coefficients := None;
     D_xy_coefficients := None;
     D_yy_coefficients := None;
     D_x_coefficients := None;
     D_y_coefficients := None;
     I_coefficients := Some (nseq 4 (const_mx 1));
     source := None;
     D_xx := 0; D_xy := 0; D_yy := 0; D_x := 0; D_y := 0;
     P := 0; QH := const_mx 1; G := row_mx 1%:M 0;
     S_lst := [::];
     g_tilde_lst := [::];
     D_inv_lst := [::];
     BD_inv_lst := [::];
     Y := [::];
     v := Rank1 [::] |}.

(** Four children of side length 1 whose particular data is 1 on the
    exterior boundary of the merged node and 0 on the shared interfaces. *)
Definition example_h_in : seq (seq int^o) :=
  [:: [:: 1; 0; 0; 1]; [:: 1; 1; 0; 0]; [:: 0; 1; 1; 0]; [:: 0; 0; 1; 1]].

(** A 2D ItI problem made of four leaves that have not been merged: no
    merge level is stored. *)
Definition example_problem_without_levels : PDEProblem rat 8 1 4 :=
  {| domain := {| bool_2D := true; bool_uniform := true |};
     use_ItI := true;
     D_xx_coefficients := None;
     D_xy_coefficients := None;
     D_yy_coefficients := None;
     D_x_coefficients := None;
     D_y_coefficients := None;
     I_coefficients := Some (nseq 4 (const_mx 1));
     source := None;
     D_xx := 0; D_xy := 0; D_yy := 0; D_x := 0; D_y := 0;
     P := 0; QH := 0; G := 0;
     S_lst := [::];
     g_tilde_lst := [::];
     D_inv_lst := [::];
     BD_inv_lst := [::];
     Y := [::];
     v := Rank1 [::] |}.

(* ------------------------------------------------------------------ *)
(** ** Wave scattering: hps/src/wave_scattering_utils.py *)

Section WaveScattering.

(** The complex numbers, with the imaginary unit ['i] for [1j]. *)
Variable C : numClosedFieldType.

(** [jnp.linalg.solve(A, B)] for a square matrix [A]. *)
Definition linalg_solve (n m : nat) (A : 'M[C]_n) (B : 'M[C]_(n, m)) : 'M[C]_(n, m) :=
  invmx A *m B.

Definition get_DtN_from_ItI (n : nat) (R : 'M[C]_n) (eta : C) : 'M[C]_n :=
  let I : 'M[C]_n := 1%:M in
  let T := (- 'i * eta) *: linalg_solve (R - I) (R + I) in
  T.

End WaveScattering.

Definition INTERP_BATCH_SIZE : nat := 20.

(** [range(start, stop, step)] for a positive [step]. *)
Definition range_step (start stop step : nat) : seq nat :=
  [seq (start + k * step)%N | k <- iota 0 ((stop - start + step - 1) %/ step)].

(** The loop over batches of sources that ends [solve_scattering_problem]:
    for every turn, the indices of the sources in
    [uscat_soln[..., chunk_start:chunk_end]]. *)
Definition interp_batches (n_src : nat) : seq (seq nat) :=
  [seq let chunk_start := i in
       let chunk_end := minn (i + INTERP_BATCH_SIZE) n_src in
       slice chunk_start chunk_end (iota 0 n_src)
  | i <- range_step 0 n_src INTERP_BATCH_SIZE].

(* ================================================================== *)
(** * Properties *)

Section LeafOperatorFacts.

Variable F : fieldType.

Lemma at_upto_setE (m1 m2 n : nat) (M : 'M[F]_(m1 + m2, n)) (X : 'M[F]_(m1, n)) :
  usubmx (at_upto_set M X) = X /\ dsubmx (at_upto_set M X) = dsubmx M.
Proof. by rewrite /at_upto_set col_mxKu col_mxKd. Qed.

Lemma at_from_setE (m1 m2 n : nat) (M : 'M[F]_(m1 + m2, n)) (X : 'M[F]_(m2, n)) :
  usubmx (at_from_set M X) = usubmx M /\ dsubmx (at_from_set M X) = X.
Proof. by rewrite /at_from_set col_mxKu col_mxKd. Qed.

(** Filling a zero matrix from the top and then from the bottom stacks the
    two blocks. *)
Lemma at_set_both (m1 m2 n : nat) (X1 : 'M[F]_(m1, n)) (X2 : 'M[F]_(m2, n)) :
  at_from_set (at_upto_set (0 : 'M[F]_(m1 + m2, n)) X1) X2 = col_mx X1 X2.
Proof. by rewrite /at_from_set /at_upto_set col_mxKu. Qed.

Section GetDtNFacts.

Variables nb ni nq : nat.
Variable source_term : 'cV[F]_(nb + ni).
Variable diff_operator : 'M[F]_(nb + ni).
Variable Q : 'M[F]_(nq, nb + ni).
Variable P : 'M[F]_(nb, nq).

Let A_ii := drsubmx diff_operator.
Let A_ie := dlsubmx diff_operator.

(** C1.  For a leaf whose interior-interior block A_ii is invertible,
    [get_DtN] returns Y = L P with L = [I; - A_ii^-1 A_ie], T = Q Y, a
    particular solution v that is zero on the boundary Chebyshev nodes and
    equals A_ii^-1 applied to the interior part of the source on the
    interior nodes, and h = Q v.  Here A_ii^-1 = [invmx A_ii] is a two-sided
    inverse of A_ii. *)
Theorem get_DtN_correct :
  A_ii \in unitmx ->
  let L := col_mx 1%:M (- (invmx A_ii *m A_ie)) in
  let '(Y, T, v, h) := get_DtN source_term diff_operator Q P in
  [/\ invmx A_ii *m A_ii = 1%:M /\ A_ii *m invmx A_ii = 1%:M,
      Y = L *m P,
      T = Q *m Y,
      usubmx v = 0 /\ dsubmx v = invmx A_ii *m dsubmx source_term
    & h = Q *m v].
Proof.
move=> A_ii_unit /=; rewrite /get_DtN -/A_ii -/A_ie.
rewrite at_set_both scaleN1r mulNmx; split=> //.
- by rewrite mulVmx // mulmxV.
- by rewrite /at_from_set col_mxKu col_mxKd; split=> //; apply/matrixP=> i j; rewrite !mxE.
Qed.

(** What the outputs are for: Y maps boundary data to functions that the
    interior rows of the operator annihilate, and v meets the source on
    the interior rows. *)
Lemma get_DtN_solves :
  A_ii \in unitmx ->
  let '(Y, T, v, h) := get_DtN source_term diff_operator Q P in
  dsubmx diff_operator *m Y = 0 /\
  dsubmx diff_operator *m v = dsubmx source_term.
Proof.
move=> A_ii_unit; rewrite /get_DtN at_set_both scaleN1r mulNmx /at_from_set.
have -> : dsubmx diff_operator = row_mx A_ie A_ii.
  by rewrite -{1}[diff_operator]submxK block_mxEv col_mxKd.
rewrite mulmxA !mul_row_col mulmx1 mulmxN mulmxA mulmxV // mul1mx subrr mul0mx.
have -> : usubmx (0 : 'cV[F]_(nb + ni)) = 0 by apply/matrixP=> i j; rewrite !mxE.
by rewrite mulmx0 add0r mulKVmx.
Qed.

End GetDtNFacts.
End LeafOperatorFacts.

Section AssembleFacts.
Variable F : fieldType.
Variable n : nat.
Implicit Types (coeffs : seq (option 'cV[F]_n)) (diff_ops : seq 'M[F]_n).
Implicit Types (coeffs_lst : seq (option (batch F n))).

Lemma einsum_ab_a0 (D : 'M[F]_n) : einsum_ab_a D 0 = 0.
Proof. by apply/matrixP=> a b; rewrite !mxE mulr0. Qed.

Lemma leaf_slice_pmap (l : nat) coeffs_lst :
  leaf_slice l (pmap id coeffs_lst)
  = pmap id [seq omap (fun c => nth 0 c l) o | o <- coeffs_lst].
Proof. by elim: coeffs_lst => [|[c|] cs IH] //=; rewrite -IH. Qed.

(** The loop of [assemble_diff_operator], started after the terms [pre]. *)
Lemma add_or_not_loop diff_ops coeffs pre out :
  foldl (fun carry i => add_or_not i carry)
    (out, pmap id (pre ++ coeffs), diff_ops, [seq isSome c | c <- pre ++ coeffs],
     size (pmap id pre))
    (iota (size pre) (size coeffs))
  = (out + sum_present_terms diff_ops (size pre) coeffs,
     pmap id (pre ++ coeffs), diff_ops, [seq isSome c | c <- pre ++ coeffs],
     size (pmap id (pre ++ coeffs))).
Proof.
elim: coeffs pre out => [|c coeffs IH] pre out /=; first by rewrite cats0 addr0.
rewrite (nth_map None) ?size_cat /= ?addnS ?ltnS ?leq_addr // nth_cat ltnn subnn /=.
have -> : (pmap id (pre ++ c :: coeffs))`_(size (pmap id pre)) = (pmap id (c :: coeffs))`_0.
  by rewrite pmap_cat nth_cat ltnn subnn.
have szE : size (pmap id (rcons pre c))
           = if isSome c then (size (pmap id pre)).+1 else size (pmap id pre).
  by rewrite -cats1 pmap_cat size_cat; case: (c) => [?|] /=; rewrite ?addn1 ?addn0.
rewrite -cat_rcons addrA -szE -(size_rcons pre c) -IH.
by case: (c) => [c0|] /=; rewrite /_add /_not ?addr0.
Qed.

Lemma assemble_diff_operatorE diff_ops coeffs :
  assemble_diff_operator (pmap id coeffs) [seq isSome c | c <- coeffs] diff_ops
  = sum_present_terms diff_ops 0 coeffs.
Proof.
rewrite /assemble_diff_operator /fori_loop size_map subn0.
by have := add_or_not_loop diff_ops coeffs [::] 0; rewrite /= add0r => ->.
Qed.

(** The operator of leaf [l], from the optional arrays of the batch. *)
Lemma assemble_leaf_sliceE (l : nat) diff_ops coeffs_lst :
  assemble_diff_operator (leaf_slice l (pmap id coeffs_lst))
    [seq isSome o | o <- coeffs_lst] diff_ops
  = sum_present_terms diff_ops 0 [seq omap (fun c => nth 0 c l) o | o <- coeffs_lst].
Proof.
rewrite leaf_slice_pmap.
have -> : [seq isSome o | o <- coeffs_lst]
          = [seq isSome o | o <- [seq omap (fun c => nth 0 c l) o | o <- coeffs_lst]].
  by rewrite -map_comp; apply: eq_map; case.
exact: assemble_diff_operatorE.
Qed.

(** A term with zero coefficients adds nothing to the sum. *)
Lemma sum_present_terms_zeros (l k n_leaves i : nat) diff_ops coeffs_lst :
  nth None coeffs_lst k = None -> (k < size coeffs_lst)%N ->
  sum_present_terms diff_ops i
    [seq omap (fun c => nth 0 c l) o
    | o <- set_nth None coeffs_lst k (Some (nseq n_leaves 0))]
  = sum_present_terms diff_ops i [seq omap (fun c => nth 0 c l) o | o <- coeffs_lst].
Proof.
elim: coeffs_lst k i => [|c cs IH] [|k] i //=.
  by move=> -> _ /=; rewrite nth_nseq if_same einsum_ab_a0.
by move=> cs_k k_lt; rewrite IH.
Qed.

Lemma pmap_id_nil coeffs_lst : ~~ has isSome coeffs_lst -> pmap id coeffs_lst = [::].
Proof. by elim: coeffs_lst => [|[c|] cs IH]. Qed.

Lemma all_have_leaves_pmap (n_leaves : nat) coeffs_lst :
  all_have_leaves n_leaves coeffs_lst ->
  all (fun c => size c == n_leaves) (pmap id coeffs_lst).
Proof. by elim: coeffs_lst => [|[c|] cs IH] //= /andP[-> /IH]. Qed.

Lemma all_have_leaves_zeros (n_leaves k : nat) coeffs_lst :
  (k < size coeffs_lst)%N -> all_have_leaves n_leaves coeffs_lst ->
  all_have_leaves n_leaves (set_nth None coeffs_lst k (Some (nseq n_leaves 0))).
Proof.
elim: coeffs_lst k => [|c cs IH] [|k] //=.
  by move=> _ /andP[_ ->]; rewrite size_nseq eqxx.
by move=> k_lt /andP[-> /(IH _ k_lt)].
Qed.

Lemma has_isSome_zeros (n_leaves k : nat) coeffs_lst :
  (k < size coeffs_lst)%N ->
  has isSome (set_nth None coeffs_lst k (Some (nseq n_leaves (0 : 'cV[F]_n)))).
Proof.
by elim: coeffs_lst k => [|c cs IH] [|k] //= k_lt; rewrite (IH _ k_lt) orbT.
Qed.

(** With nothing to gather, the assembly cannot be mapped over leaves. *)
Lemma gather_and_assemble_lst_none diff_ops coeffs_lst :
  ~~ has isSome coeffs_lst ->
  gather_and_assemble_lst diff_ops coeffs_lst = raise ValueError_vmap.
Proof.
by move=> /pmap_id_nil; rewrite /gather_and_assemble_lst /gather_coeffs => ->.
Qed.

Lemma jnp_arrayE (n_leaves : nat) (arrays : seq (batch F n)) :
  all (fun c => size c == n_leaves) arrays -> jnp_array arrays = ret arrays.
Proof.
rewrite /jnp_array; case: arrays => [|c0 g] //= /andP[/eqP -> sizes].
by rewrite eqxx sizes.
Qed.

Lemma vmapped_assemble_diff_operatorE (n_leaves : nat) (coeffs_gathered : seq (batch F n))
  (which_coeffs : seq bool) diff_ops :
  coeffs_gathered != [::] -> all (fun c => size c == n_leaves) coeffs_gathered ->
  vmapped_assemble_diff_operator coeffs_gathered which_coeffs diff_ops
  = ret [seq assemble_diff_operator (leaf_slice l coeffs_gathered) which_coeffs diff_ops
        | l <- iota 0 n_leaves].
Proof. by case: coeffs_gathered => [|c0 g] //= _ /andP[/eqP -> _]. Qed.

(** With at least one array, and all arrays of [n_leaves] leaves, the
    result is the sum of the present terms, leaf by leaf. *)
Lemma gather_and_assemble_lstE (n_leaves : nat) diff_ops coeffs_lst :
  all_have_leaves n_leaves coeffs_lst -> has isSome coeffs_lst ->
  gather_and_assemble_lst diff_ops coeffs_lst
  = ret [seq sum_present_terms diff_ops 0
               [seq omap (fun c => nth 0 c l) o | o <- coeffs_lst]
        | l <- iota 0 n_leaves].
Proof.
move=> /all_have_leaves_pmap sizes some.
have gathered_n0 : pmap id coeffs_lst != [::].
  by rewrite -size_eq0 (size_pmap id) -lt0n -has_count.
rewrite /gather_and_assemble_lst /gather_coeffs (jnp_arrayE sizes) /=.
rewrite (vmapped_assemble_diff_operatorE _ _ gathered_n0 sizes).
by congr ret; apply: eq_map => l; rewrite assemble_leaf_sliceE.
Qed.

(** Gathering and assembling with term [k] absent and with term [k]
    present and zero. *)
Lemma gather_and_assemble_lst_absent (n_leaves k : nat) diff_ops coeffs_lst :
  nth None coeffs_lst k = None -> (k < size coeffs_lst)%N ->
  all_have_leaves n_leaves coeffs_lst ->
  gather_and_assemble_lst diff_ops coeffs_lst
  = if has isSome coeffs_lst then
      gather_and_assemble_lst diff_ops
        (set_nth None coeffs_lst k (Some (nseq n_leaves 0)))
    else raise ValueError_vmap.
Proof.
move=> absent k_lt leaves; case: ifPn => [some|]; last exact: gather_and_assemble_lst_none.
rewrite (gather_and_assemble_lstE _ leaves some).
rewrite (gather_and_assemble_lstE _ (all_have_leaves_zeros k_lt leaves)
           (has_isSome_zeros _ k_lt)).
by congr ret; apply: eq_map => l; rewrite sum_present_terms_zeros.
Qed.

Lemma gather_and_assembleE diff_ops (a b c d e f : option (batch F n)) :
  gather_and_assemble diff_ops a b c d e f
  = gather_and_assemble_lst diff_ops [:: a; b; c; d; e; f].
Proof. by []. Qed.

(** C5 (amended).  For every batch of coefficient arrays of [n_leaves]
    leaves in which some other term has coefficients, gathering and
    assembling with the coefficients of one differential term absent
    gives, for every leaf, the operator obtained with that term present
    and an all-zero coefficient array; this holds for each of the six
    terms D_xx, D_xy, D_yy, D_x, D_y, I.  With the term absent and no
    other coefficient array, there is no leaf axis to map over. *)
Theorem absent_term_same_as_zero_term (n_leaves : nat) diff_ops
  (a b c d e f : option (batch F n)) :
  let zeros := Some (nseq n_leaves (0 : 'cV[F]_n)) in
  let op := gather_and_assemble diff_ops in
  let unless_alone (others : seq (option (batch F n))) with_zeros :=
    if has isSome others then with_zeros else raise ValueError_vmap in
  all_have_leaves n_leaves [:: a; b; c; d; e; f] ->
  [/\ op None b c d e f = unless_alone [:: b; c; d; e; f] (op zeros b c d e f),
      op a None c d e f = unless_alone [:: a; c; d; e; f] (op a zeros c d e f)
    & op a b None d e f = unless_alone [:: a; b; d; e; f] (op a b zeros d e f)]
  /\ [/\ op a b c None e f = unless_alone [:: a; b; c; e; f] (op a b c zeros e f),
      op a b c d None f = unless_alone [:: a; b; c; d; f] (op a b c d zeros f)
    & op a b c d e None = unless_alone [:: a; b; c; d; e] (op a b c d e zeros)].
Proof.
move=> zeros op unless_alone /= /and5P[la lb lc ld /andP[le /andP[lf _]]].
have term k cs : nth None cs k = None -> (k < size cs)%N ->
    all_have_leaves n_leaves cs ->
    gather_and_assemble_lst diff_ops cs
    = unless_alone cs (gather_and_assemble_lst diff_ops (set_nth None cs k zeros)).
  exact: gather_and_assemble_lst_absent.
rewrite /op !gather_and_assembleE; split; split.
- by rewrite (term 0%N) //= lb lc ld le lf.
- by rewrite (term 1%N) //= ?la ?lc ?ld ?le ?lf // /unless_alone /= orbF.
- by rewrite (term 2%N) //= ?la ?lb ?ld ?le ?lf // /unless_alone /= orbF.
- by rewrite (term 3%N) //= ?la ?lb ?lc ?le ?lf // /unless_alone /= orbF.
- by rewrite (term 4%N) //= ?la ?lb ?lc ?ld ?lf // /unless_alone /= orbF.
- by rewrite (term 5%N) //= ?la ?lb ?lc ?ld ?le // /unless_alone /= orbF.
Qed.

End AssembleFacts.

Section SolverFacts.

Variable F : fieldType.
Variables nb ni nq : nat.
Implicit Types (pde_problem : PDEProblem F nb ni nq).
Implicit Types (new_source : source_array F nb ni).

Lemma col_mulmx (m k p : nat) (A : 'M[F]_(m, k)) (B : 'M[F]_(k, p)) (j : 'I_p) :
  col j (A *m B) = A *m col j B.
Proof. by apply/matrixP=> i j'; rewrite !mxE; apply: eq_bigr => t _; rewrite !mxE. Qed.

Lemma col_dsubmx (m1 m2 p : nat) (A : 'M[F]_(m1 + m2, p)) (j : 'I_p) :
  col j (dsubmx A) = dsubmx (col j A).
Proof. by apply/matrixP=> i j'; rewrite !mxE. Qed.

Lemma col_colV (m : nat) (c : 'cV[F]_m) (j : 'I_1) : col j c = c.
Proof. by apply/matrixP=> i j'; rewrite !mxE !ord1. Qed.

(** X4.  The homogeneous outputs of [get_ItI] do not depend on the
    source, and column [j] of the particular outputs is what the single
    source in column [j] gives. *)
Lemma get_ItI_col (nsrc : nat) (A : 'M[F]_(nb + ni)) (s : 'M[F]_(nb + ni, nsrc))
  (P : 'M[F]_(nb, nq)) (QH : 'M[F]_(nq, nb + ni)) (G : 'M[F]_(nb, nb + ni)) (j : 'I_nsrc) :
  let o := get_ItI A s P QH G in
  let o1 := get_ItI A (col j s) P QH G in
  [/\ o1.1.1.1 = o.1.1.1, o1.1.1.2 = o.1.1.2, o1.1.2 = col j o.1.2 & o1.2 = col j o.2].
Proof. by rewrite /get_ItI /= !col_mulmx col_dsubmx. Qed.

Lemma index_last_0E (m nsrc : nat) (x : seq 'M[F]_(m, nsrc.+1)) :
  index_last_0 x = ret [seq col ord0 A | A <- x].
Proof.
rewrite /index_last_0; case: insubP => [j _ /= j0|/negP[]//].
by have -> : j = ord0 by apply: val_inj.
Qed.

Lemma zip_mapr (S T U : Type) (g : T -> U) (s : seq S) (t : seq T) :
  zip s [seq g y | y <- t] = [seq (p.1, g p.2) | p <- zip s t].
Proof. by elim: s t => [|x s IH] [|y t] //=; rewrite IH. Qed.

Lemma local_solve_keeps_first_source_eq pde_problem (nsrc : nat)
  (a : seq 'M[F]_(nb + ni, nsrc.+1)) :
  local_solve_stage_uniform_2D_ItI (set_source pde_problem (Source3 a))
  = local_solve_stage_uniform_2D_ItI
      (set_source pde_problem (Source2 [seq col ord0 s | s <- a])).
Proof.
rewrite /local_solve_stage_uniform_2D_ItI /=.
case: gather_and_assemble => [e|ops] //=.
rewrite /local_solve_rank3 /vmapped_get_ItI size_map /=.
case: ifP => // _ /=; rewrite !index_last_0E /= zip_mapr -!map_comp.
by congr (ret (_, _, _, _)); apply: eq_map => -[A s] /=;
  rewrite !col_mulmx !col_dsubmx col_colV.
Qed.

(** The operators that the stage assembles from the coefficients of the
    problem. *)
Local Notation assembled_operators pde_problem :=
  (gather_and_assemble
     [:: D_xx pde_problem; D_xy pde_problem; D_yy pde_problem;
         D_x pde_problem; D_y pde_problem; 1%:M]
     (D_xx_coefficients pde_problem) (D_xy_coefficients pde_problem)
     (D_yy_coefficients pde_problem) (D_x_coefficients pde_problem)
     (D_y_coefficients pde_problem) (I_coefficients pde_problem)).

(** The blocks of the inverse of an invertible B. *)
Lemma invmx_B_blocks (G : 'M[F]_(nb, nb + ni)) (A_int : 'M[F]_(ni, nb + ni)) :
  col_mx G A_int \in unitmx ->
  let B_inv := invmx (col_mx G A_int) in
  [/\ G *m lsubmx B_inv = 1%:M, G *m rsubmx B_inv = 0,
      A_int *m lsubmx B_inv = 0 & A_int *m rsubmx B_inv = 1%:M].
Proof.
move=> B_unit B_inv; have := mulmxV B_unit.
rewrite -/B_inv -{1}[B_inv]hsubmxK mul_col_row scalar_mx_block.
by case/eq_block_mx.
Qed.

(** C9.  When the source array carries several sources (shape
    (n_leaves, p**2, n_src) with n_src = nsrc + 1) on leaves whose matrix
    B is invertible, [local_solve_stage_uniform_2D_ItI] returns, next to
    the operators Y and R of the leaves, the particular solution v and the
    particular impedance h of the first source alone: on every leaf, v
    is column 0 of the particular solutions of all the sources, which is
    Phi applied to the interior part of the source at index 0; it has zero
    incoming impedance and the interior rows of the operator map it to
    that source; and h = QH v.  The other sources do not reach v and h:
    the call returns what it returns for the single source found at
    index 0. *)
Theorem local_solve_keeps_first_source pde_problem (nsrc : nat)
  (a : seq 'M[F]_(nb + ni, nsrc.+1)) (ops : seq 'M[F]_(nb + ni)) :
  let B A := col_mx (G pde_problem) (dsubmx A) in
  assembled_operators pde_problem = ret ops -> size ops = size a ->
  all (fun A => B A \in unitmx) ops ->
  let Y_arr := [seq lsubmx (invmx (B A)) *m P pde_problem | A <- ops] in
  let R_arr := [seq QH pde_problem *m Y | Y <- Y_arr] in
  let v_all := [seq rsubmx (invmx (B As.1)) *m dsubmx As.2 | As <- zip ops a] in
  let v_first :=
    [seq rsubmx (invmx (B As.1)) *m dsubmx (col ord0 As.2) | As <- zip ops a] in
  let h_first := [seq QH pde_problem *m v | v <- v_first] in
  [/\ local_solve_stage_uniform_2D_ItI (set_source pde_problem (Source3 a))
      = ret (Y_arr, R_arr, v_first, h_first),
      v_first = [seq col ord0 v | v <- v_all] /\ size v_first = size a,
      forall l, (l < size a)%N ->
        G pde_problem *m nth 0 v_first l = 0
        /\ dsubmx (nth 0 ops l) *m nth 0 v_first l = dsubmx (col ord0 (nth 0 a l))
    & local_solve_stage_uniform_2D_ItI
        (set_source pde_problem (Source2 [seq col ord0 s | s <- a]))
      = ret (Y_arr, R_arr, v_first, h_first)].
Proof.
move=> B opsE sizes units Y_arr R_arr v_all v_first h_first.
have solved : local_solve_stage_uniform_2D_ItI (set_source pde_problem (Source3 a))
              = ret (Y_arr, R_arr, v_first, h_first).
  rewrite /local_solve_stage_uniform_2D_ItI /= opsE /=.
  rewrite /local_solve_rank3 /vmapped_get_ItI sizes eqxx /= !index_last_0E /=.
  congr (ret (_, _, _, _)); rewrite -?map_comp.
  - rewrite /Y_arr -[in RHS](@unzip1_zip _ _ ops a) ?sizes // /unzip1 -map_comp.
    by apply: eq_map => -[A s] /=; rewrite /get_ItI /= ?at_set_both.
  - rewrite /R_arr /Y_arr -[in RHS](@unzip1_zip _ _ ops a) ?sizes // /unzip1 -!map_comp.
    by apply: eq_map => -[A s] /=; rewrite /get_ItI /= ?at_set_both.
  - by apply: eq_map => -[A s] /=; rewrite /get_ItI /= ?at_set_both col_mulmx col_dsubmx.
  - rewrite /h_first /v_first -map_comp.
    by apply: eq_map => -[A s] /=; rewrite /get_ItI /= ?at_set_both !col_mulmx col_dsubmx.
split=> //.
- split; last by rewrite size_map size_zip sizes minnn.
  rewrite /v_first /v_all -map_comp.
  by apply: eq_map => -[A s] /=; rewrite col_mulmx col_dsubmx.
- move=> l l_lt; rewrite /v_first.
  rewrite (nth_map (0, 0)) ?size_zip ?sizes ?minnn // nth_zip //=.
  have l_lt_ops : (l < size ops)%N by rewrite sizes.
  have [_ GR _ AR] := invmx_B_blocks (all_nthP 0 units l l_lt_ops).
  by rewrite !mulmxA GR AR mul0mx mul1mx.
- by rewrite -local_solve_keeps_first_source_eq.
Qed.

(** Two source arrays with the same first source are solved alike. *)
Lemma local_solve_ignores_other_sources pde_problem (nsrc nsrc' : nat)
  (a : seq 'M[F]_(nb + ni, nsrc.+1)) (a' : seq 'M[F]_(nb + ni, nsrc'.+1)) :
  [seq col ord0 s | s <- a] = [seq col ord0 s | s <- a'] ->
  local_solve_stage_uniform_2D_ItI (set_source pde_problem (Source3 a))
  = local_solve_stage_uniform_2D_ItI (set_source pde_problem (Source3 a')).
Proof. by move=> first_eq; rewrite !local_solve_keeps_first_source_eq first_eq. Qed.

(** The problem object that the upward pass leaves behind. *)
Lemma up_pass_state new_source pde_problem :
  (up_pass_uniform_2D_ItI new_source pde_problem).1
  = set_source pde_problem
      (match new_source with Source2 a => @Source3 F nb ni 1 a | Source3 _ _ => new_source end).
Proof. by case: new_source. Qed.

(** C8.  [up_pass_uniform_2D_ItI] overwrites [pde_problem.source] with the
    source it is given, a source of rank 2 receiving a trailing axis of
    length 1: whatever was stored before is gone, while [S_lst],
    [D_inv_lst] and [BD_inv_lst] are as before.  [solve] with a source,
    on a 2D ItI problem, leaves the problem object in that same state. *)
Theorem up_pass_overwrites_source pde_problem (boundary_data : boundary F) new_source :
  let after_up_pass := (up_pass_uniform_2D_ItI new_source pde_problem).1 in
  let after_solve := (solve pde_problem boundary_data (Some new_source)).1 in
  [/\ source after_up_pass
      = Some (match new_source with
              | Source2 a => @Source3 F nb ni 1 a
              | Source3 _ _ => new_source
              end),
      S_lst after_up_pass = S_lst pde_problem,
      D_inv_lst after_up_pass = D_inv_lst pde_problem,
      BD_inv_lst after_up_pass = BD_inv_lst pde_problem
    & after_solve
      = if bool_2D (domain pde_problem) && use_ItI pde_problem then after_up_pass
        else pde_problem].
Proof.
move=> after_up_pass after_solve; rewrite {}/after_solve {}/after_up_pass up_pass_state.
split=> //; rewrite /solve /_up_then_down_pass.
by case: (bool_2D _); case: (use_ItI _) => //=; case: new_source.
Qed.

Lemma foldl_raised (T U : Type) (f : T -> U -> result T) (e : exn) (s : seq U) :
  foldl (fun state i => do x <- state; f x i) (raise e) s = raise e.
Proof. by elim: s. Qed.

(** A vector of rank 2 cannot enter the loop over the levels. *)
Lemma up_pass_loop_rank2 (h_in : seq (seq F)) (D_inv : seq (smatrix F))
  (D_inv_lst BD_inv_lst : seq (seq (smatrix F))) :
  up_pass_loop (Rank2 h_in) (D_inv :: D_inv_lst) BD_inv_lst = raise ValueError_unpack.
Proof.
rewrite /up_pass_loop /=.
exact: (foldl_raised
          (fun hs i => do hg <- up_pass_level (D_inv :: D_inv_lst) BD_inv_lst i hs.1;
                       ret (hg.1, rcons hs.2 hg.2))).
Qed.

Lemma up_pass_result_on_merged_tree new_source pde_problem :
  D_inv_lst pde_problem != [::] ->
  (up_pass_uniform_2D_ItI new_source pde_problem).2
  = (do _ <- local_solve_stage_uniform_2D_ItI
               (up_pass_uniform_2D_ItI new_source pde_problem).1;
     raise ValueError_unpack).
Proof.
move=> D_inv_lst_n0; rewrite /up_pass_uniform_2D_ItI [in LHS]/=.
case: local_solve_stage_uniform_2D_ItI => [e|[[[Y_arr R_arr] v_arr] h_arr]] //=.
by case: (D_inv_lst pde_problem) D_inv_lst_n0 => // D Ds _; rewrite up_pass_loop_rank2.
Qed.

(** C2.  On a problem with at least one merge level (a non-empty
    [D_inv_lst], as the no-source merge caches it), the upward pass
    returns nothing, so it cannot return the v and g_tilde arrays of the
    source-aware path: when the local solve succeeds, unpacking the shape
    of its rank-2 particular boundary data into three names raises. *)
Theorem up_pass_raises_on_merged_tree new_source pde_problem :
  D_inv_lst pde_problem != [::] ->
  let up := up_pass_uniform_2D_ItI new_source pde_problem in
  up.2 = (do _ <- local_solve_stage_uniform_2D_ItI up.1; raise ValueError_unpack)
  /\ forall out, up.2 <> ret out.
Proof.
move=> D_inv_lst_n0 up; have upE := up_pass_result_on_merged_tree new_source D_inv_lst_n0.
by split=> // out; rewrite /up upE; case: local_solve_stage_uniform_2D_ItI.
Qed.

(** X14.  On a 2D ItI problem with merge levels, [solve] with a source
    never reaches the down pass: the call raises in the upward pass. *)
Lemma solve_with_source_on_merged_tree pde_problem (boundary_data : boundary F) new_source :
  bool_2D (domain pde_problem) -> use_ItI pde_problem ->
  D_inv_lst pde_problem != [::] ->
  forall call, (solve pde_problem boundary_data (Some new_source)).2 <> ret call.
Proof.
move=> is_2D is_ItI D_inv_lst_n0 call.
rewrite /solve; case: ifP => [|_]; first by rewrite is_2D is_ItI.
rewrite /_up_then_down_pass.
have := up_pass_result_on_merged_tree new_source D_inv_lst_n0.
case: (up_pass_uniform_2D_ItI _ _) => [after up] /= ->.
by case: local_solve_stage_uniform_2D_ItI.
Qed.

(** X13.  A single source of rank 2 on a problem without merge levels:
    when the local solve returns, the upward pass raises at the squeeze of
    the particular solutions, unless a leaf has exactly one Chebyshev
    node. *)
Lemma up_pass_single_source_squeeze (a : seq 'cV[F]_(nb + ni)) pde_problem :
  (nb + ni != 1)%N -> D_inv_lst pde_problem = [::] ->
  let up := up_pass_uniform_2D_ItI (Source2 a) pde_problem in
  up.2 = (do _ <- local_solve_stage_uniform_2D_ItI up.1; raise ValueError_squeeze).
Proof.
move=> n1 D_nil up; rewrite /up /up_pass_uniform_2D_ItI [in LHS]/=.
case: local_solve_stage_uniform_2D_ItI => [e|[[[Y_arr R_arr] v_arr] h_arr]] //=.
by rewrite D_nil /up_pass_loop /= /squeeze_cols (negPf n1).
Qed.

(** The guard of [solve] rejects a source on problems that are not 2D or
    do not use ItI, and leaves the problem object alone. *)
Lemma solve_source_guard pde_problem (boundary_data : boundary F) new_source :
  ~~ bool_2D (domain pde_problem) || ~~ use_ItI pde_problem ->
  solve pde_problem boundary_data (Some new_source)
  = (pde_problem, raise ValueError_source_unsupported).
Proof. by rewrite /solve => ->. Qed.

(** C4.  The guard does not look at [bool_uniform]: on a 2D problem with
    [use_ItI] set, also one on an adaptive tree, [solve] with a source
    enters the upward pass, which overwrites the stored source before
    anything is checked. *)
Theorem solve_source_guard_ignores_uniform pde_problem (boundary_data : boundary F) new_source :
  bool_2D (domain pde_problem) -> use_ItI pde_problem ->
  ~~ bool_uniform (domain pde_problem) ->
  let out := solve pde_problem boundary_data (Some new_source) in
  out = _up_then_down_pass pde_problem boundary_data new_source
  /\ source out.1
     = Some (match new_source with
             | Source2 a => @Source3 F nb ni 1 a
             | Source3 _ _ => new_source
             end).
Proof.
move=> is_2D is_ItI _ out; rewrite {}/out /solve is_2D is_ItI /=; split=> //.
by rewrite /_up_then_down_pass; case: new_source.
Qed.

End SolverFacts.

Section BoundaryDataFacts.

Variable R : nzRingType.
Variable E : lmodType R.
Implicit Types (x : seq E) (row : seq R) (M : seq (seq R)).

Lemma arangeE (a n : nat) : arange a (a + n) = iota a n.
Proof. by rewrite /arange addKn. Qed.

(** The eight segments of [reindex_r], written with their lengths. *)
Lemma reindex_rE (nside : nat) :
  reindex_r nside
  = iota 0 nside ++ iota (4 * nside) nside ++ iota (5 * nside) nside
    ++ iota (2 * nside) nside ++ iota (3 * nside) nside
    ++ iota (6 * nside) nside ++ iota (7 * nside) nside ++ iota nside nside.
Proof.
rewrite /reindex_r /arange subn0.
by rewrite -!mulnBl /= ?mul1n ?(mulSn 1) ?mul1n ?addKn.
Qed.

Lemma iota_8_blocks (nside : nat) :
  iota 0 (8 * nside)
  = iota 0 nside ++ iota nside nside ++ iota (2 * nside) nside
    ++ iota (3 * nside) nside ++ iota (4 * nside) nside
    ++ iota (5 * nside) nside ++ iota (6 * nside) nside ++ iota (7 * nside) nside.
Proof.
have step k m : iota (k * nside) (m.+1 * nside)
                = iota (k * nside) nside ++ iota (k.+1 * nside) (m * nside).
  by rewrite mulSn iotaD addnC -mulSn.
by rewrite -[0%N in LHS](mul0n nside) !step /= mul0n mul1n cats0.
Qed.

Lemma reindex_r_perm_iota (nside : nat) :
  perm_eq (reindex_r nside) (iota 0 (8 * nside)).
Proof.
rewrite reindex_rE iota_8_blocks; apply/permP => pr; rewrite !count_cat.
by rewrite -!plusE; lia.
Qed.

(** C10.  The re-indexing array [r] of [assemble_boundary_data] is a
    permutation of 0, ..., 8 * nside - 1: every index is in range and
    occurs exactly once. *)
Theorem reindex_r_perm (nside : nat) :
  [/\ perm_eq (reindex_r nside) (iota 0 (8 * nside)),
      all (fun i => (i < 8 * nside)%N) (reindex_r nside),
      uniq (reindex_r nside)
    & forall i, (i < 8 * nside)%N -> count_mem i (reindex_r nside) = 1%N].
Proof.
have r_perm := reindex_r_perm_iota nside.
split=> //.
- by rewrite (perm_all _ r_perm); apply/allP=> i; rewrite mem_iota add0n.
- by rewrite (perm_uniq r_perm) iota_uniq.
- move=> i i_lt; rewrite (permP r_perm) count_uniq_mem ?iota_uniq //.
  by rewrite mem_iota add0n i_lt.
Qed.

(** X19.  Re-indexing by [r] neither drops nor repeats an entry of a
    vector of length 8 * nside: g_tilde[r] is a permutation of g_tilde. *)
Lemma take_indices_reindex_r (nside : nat) x :
  size x = (8 * nside)%N -> perm_eq (take_indices x (reindex_r nside)) x.
Proof.
move=> size_x; have r_perm := reindex_r_perm_iota nside.
rewrite -[x in X in perm_eq _ X](mkseq_nth 0) /mkseq size_x.
exact: perm_map.
Qed.

Lemma dot_scale_N1 row x : dot [seq -1 * a | a <- row] x = - dot row x.
Proof.
rewrite /dot; elim: row x => [|a row IH] [|e x] /=; rewrite ?oppr0 //.
by rewrite IH mulN1r scaleNr opprD.
Qed.

Lemma matvec_scale_rows_N1 M x :
  matvec (scale_rows (-1) M) x = [seq - e | e <- matvec M x].
Proof. by rewrite /matvec /scale_rows -!map_comp; apply: eq_map => row /=; rewrite dot_scale_N1. Qed.

(** The interface part of the result is as the specification has it:
    minus [D_inv] applied to the children's data on the shared interfaces,
    re-ordered by [r]. *)
Lemma assemble_boundary_data_g_tilde (h_in : seq (seq E)) (D_inv BD_inv : seq (seq R)) :
  let nside := (size (nth [::] h_in 0) %/ 4)%N in
  (assemble_boundary_data h_in D_inv BD_inv).2
  = take_indices [seq - e | e <- matvec D_inv (h_int_child_of nside h_in)] (reindex_r nside).
Proof. by rewrite /assemble_boundary_data /= matvec_scale_rows_N1. Qed.

(** The exterior part is computed from the exterior data alone. *)
Lemma assemble_boundary_data_h (h_in : seq (seq E)) (D_inv BD_inv : seq (seq R)) :
  let nside := (size (nth [::] h_in 0) %/ 4)%N in
  let h_ext_child := h_ext_child_of nside h_in in
  (assemble_boundary_data h_in D_inv BD_inv).1
  = roll_neg nside (vsub h_ext_child (matvec BD_inv h_ext_child)).
Proof. by []. Qed.

End BoundaryDataFacts.

(** C3.  On [example_h_in] with [BD_inv] the identity, the interface data
    is zero and contributes nothing, so the exterior data corrected for
    its dependence on the interface is the exterior data itself, all
    ones; [assemble_boundary_data] returns zeros, having applied [BD_inv]
    to the exterior data instead. *)
Theorem assemble_boundary_data_applies_BD_inv_to_exterior :
  let identity := identity_smatrix int 8 in
  let h_int_child := h_int_child_of 1 example_h_in in
  let h_ext_child := h_ext_child_of 1 example_h_in in
  [/\ h_int_child = nseq 8 0, h_ext_child = nseq 8 1,
      roll_neg 1 (vsub h_ext_child (matvec identity h_int_child)) = nseq 8 1
    & (assemble_boundary_data example_h_in identity identity).1 = nseq 8 0].
Proof. by split; vm_compute. Qed.

Section FusedFacts.

Variable get_fused_chunksize_2D : nat -> dtype -> nat -> nat * nat.

Lemma chunk_leaves (n_leaves chunksize i : nat) :
  (i.+1 * chunksize <= n_leaves)%N ->
  leaves_of_slice n_leaves (i * chunksize) (minn ((i + 1) * chunksize) n_leaves)
  = iota (i * chunksize) chunksize.
Proof.
move=> le_n; rewrite addn1 (minn_idPl le_n) /leaves_of_slice /slice.
by rewrite take_iota (minn_idPl le_n) drop_iota add0n mulSn addnK.
Qed.

(** As long as the chunks fit, the loop hands out the leaves one after the
    other, chunk by chunk. *)
Lemma chunk_loop_flatten (n_leaves chunksize n_chunks : nat) :
  (n_chunks * chunksize <= n_leaves)%N ->
  flatten (chunk_loop n_leaves chunksize n_chunks) = iota 0 (n_chunks * chunksize).
Proof.
rewrite /chunk_loop; elim: n_chunks => [|k IH] le_n //.
have -> : iota 0 k.+1 = iota 0 k ++ [:: k] by rewrite -addn1 iotaD.
rewrite map_cat flatten_cat /= cats0.
have le_k : (k * chunksize <= n_leaves)%N.
  by apply: (leq_trans _ le_n); rewrite leq_mul2r leqnSn orbT.
rewrite (IH le_k).
by rewrite chunk_leaves ?addn1 // mulSn addnC iotaD.
Qed.

(** What the loop leaves out: it always stops at the last full chunk. *)
Lemma chunk_loop_floor (n_leaves chunksize : nat) :
  flatten (chunk_loop n_leaves chunksize (n_leaves %/ chunksize))
  = iota 0 (n_leaves %/ chunksize * chunksize).
Proof. by rewrite chunk_loop_flatten // leq_divM. Qed.




End FusedFacts.

Section ShapeFacts.









End ShapeFacts.

Lemma get_DtN_correct_witness :
  let diff_operator : 'M[rat]_(8 + 1) := 1%:M in
  let source_term : 'cV[rat]_(8 + 1) := const_mx 1 in
  let Q : 'M[rat]_(4, 8 + 1) := 0 in
  let P : 'M[rat]_(8, 4) := 0 in
  let A_ii := drsubmx diff_operator in
  let A_ie := dlsubmx diff_operator in
  A_ii \in unitmx /\
  (let L := col_mx 1%:M (- (invmx A_ii *m A_ie)) in
   let '(Y, T, v, h) := get_DtN source_term diff_operator Q P in
   [/\ invmx A_ii *m A_ii = 1%:M /\ A_ii *m invmx A_ii = 1%:M,
       Y = L *m P,
       T = Q *m Y,
       usubmx v = 0 /\ dsubmx v = invmx A_ii *m dsubmx source_term
     & h = Q *m v]).
Proof.
have A_ii_unit : drsubmx (1%:M : 'M[rat]_(8 + 1)) \in unitmx.
  by rewrite scalar_mx_block block_mxKdr unitmx1.
split; first exact: A_ii_unit.
exact: (@get_DtN_correct _ 8 1 4 (const_mx 1) 1%:M 0 0 A_ii_unit).
Defined.

Lemma absent_term_same_as_zero_term_witness :
  let n_leaves := 4%N in
  let diff_ops : seq 'M[rat]_9 := nseq 6 1%:M in
  let a : option (batch rat 9) := Some (nseq 4 (const_mx 1)) in
  let b : option (batch rat 9) := None in
  let zeros := Some (nseq n_leaves (0 : 'cV[rat]_9)) in
  let op := gather_and_assemble diff_ops in
  let unless_alone (others : seq (option (batch rat 9))) with_zeros :=
    if has isSome others then with_zeros else raise ValueError_vmap in
  all_have_leaves n_leaves [:: a; b; b; b; b; b] /\
  ([/\ op None b b b b b = unless_alone [:: b; b; b; b; b] (op zeros b b b b b),
       op a None b b b b = unless_alone [:: a; b; b; b; b] (op a zeros b b b b)
     & op a b None b b b = unless_alone [:: a; b; b; b; b] (op a b zeros b b b)]
   /\ [/\ op a b b None b b = unless_alone [:: a; b; b; b; b] (op a b b zeros b b),
       op a b b b None b = unless_alone [:: a; b; b; b; b] (op a b b b zeros b)
     & op a b b b b None = unless_alone [:: a; b; b; b; b] (op a b b b b zeros)]).
Proof.
split; first by [].
exact: (@absent_term_same_as_zero_term _ 9 4 (nseq 6 1%:M)
          (Some (nseq 4 (const_mx 1))) None None None None None isT).
Defined.

(** C5, as stated, fails when the absent term is the only one: with all
    six coefficient arrays absent nothing is gathered and the assembly
    raises, while with D_xx present and zero on four leaves it returns
    four zero operators. *)
Lemma absent_term_alone_raises :
  let diff_ops : seq 'M[rat]_9 := nseq 6 1%:M in
  let absent := gather_and_assemble diff_ops None None None None None None in
  let present_zero :=
    gather_and_assemble diff_ops (Some (nseq 4 0)) None None None None None in
  [/\ absent = raise ValueError_vmap, present_zero = ret (nseq 4 0)
    & absent <> present_zero].
Proof.
have present_zeroE :
    gather_and_assemble (nseq 6 (1%:M : 'M[rat]_9)) (Some (nseq 4 0))
      None None None None None = ret (nseq 4 0).
  rewrite gather_and_assembleE (@gather_and_assemble_lstE _ _ 4) //=.
  by rewrite einsum_ab_a0 !addr0.
by split; rewrite ?present_zeroE.
Qed.

(** On the well-posed example every leaf operator is the identity, and
    the matrix B of every leaf is invertible. *)
Lemma example_solvable_operators :
  gather_and_assemble
    [:: D_xx example_problem_solvable; D_xy example_problem_solvable;
        D_yy example_problem_solvable; D_x example_problem_solvable;
        D_y example_problem_solvable; 1%:M]
    (D_xx_coefficients example_problem_solvable)
    (D_xy_coefficients example_problem_solvable)
    (D_yy_coefficients example_problem_solvable)
    (D_x_coefficients example_problem_solvable)
    (D_y_coefficients example_problem_solvable)
    (I_coefficients example_problem_solvable)
  = ret (nseq 4 1%:M).
Proof.
rewrite gather_and_assembleE (@gather_and_assemble_lstE _ _ 4) //=.
have -> : einsum_ab_a (1%:M : 'M[rat]_(8 + 1)) (const_mx 1) = 1%:M.
  by apply/matrixP=> i j; rewrite !mxE mulr1.
by rewrite !add0r addr0.
Qed.

Lemma example_solvable_B_unit :
  col_mx (G example_problem_solvable) (dsubmx (1%:M : 'M[rat]_(8 + 1))) \in unitmx.
Proof.
have -> : dsubmx (1%:M : 'M[rat]_(8 + 1)) = row_mx 0 1%:M.
  by rewrite scalar_mx_block block_mxEv col_mxKd.
by rewrite /= -block_mxEv -scalar_mx_block unitmx1.
Qed.

Lemma local_solve_keeps_first_source_witness :
  let pde_problem := example_problem_solvable in
  let a : seq 'M[rat]_(8 + 1, 2) := nseq 4 (\matrix_(i, j) (j.+1)%:R) in
  let ops : seq 'M[rat]_(8 + 1) := nseq 4 1%:M in
  let B (A : 'M[rat]_(8 + 1)) := col_mx (G pde_problem) (dsubmx A) in
  let Y_arr := [seq lsubmx (invmx (B A)) *m P pde_problem | A <- ops] in
  let R_arr := [seq QH pde_problem *m Y | Y <- Y_arr] in
  let v_all := [seq rsubmx (invmx (B As.1)) *m dsubmx As.2 | As <- zip ops a] in
  let v_first :=
    [seq rsubmx (invmx (B As.1)) *m dsubmx (col ord0 As.2) | As <- zip ops a] in
  let h_first := [seq QH pde_problem *m v | v <- v_first] in
  [/\ size ops = size a, all (fun A => B A \in unitmx) ops
    & [/\ local_solve_stage_uniform_2D_ItI (set_source pde_problem (Source3 a))
          = ret (Y_arr, R_arr, v_first, h_first),
          v_first = [seq col ord0 v | v <- v_all] /\ size v_first = size a,
          forall l, (l < size a)%N ->
            G pde_problem *m nth 0 v_first l = 0
            /\ dsubmx (nth 0 ops l) *m nth 0 v_first l = dsubmx (col ord0 (nth 0 a l))
        & local_solve_stage_uniform_2D_ItI
            (set_source pde_problem (Source2 [seq col ord0 s | s <- a]))
          = ret (Y_arr, R_arr, v_first, h_first)]].
Proof.
have units : all (fun A : 'M[rat]_(8 + 1) =>
                    col_mx (G example_problem_solvable) (dsubmx A) \in unitmx)
               (nseq 4 1%:M).
  by rewrite all_nseq example_solvable_B_unit orbT.
split; [by [] | exact: units | ].
exact: (@local_solve_keeps_first_source _ 8 1 4 example_problem_solvable 1
          (nseq 4 (\matrix_(i, j) (j.+1)%:R)) (nseq 4 1%:M)
          example_solvable_operators erefl units).
Defined.

Lemma up_pass_raises_on_merged_tree_witness :
  let pde_problem := example_problem true in
  let new_source : source_array rat 8 1 := Source2 (nseq 4 (const_mx 1)) in
  D_inv_lst pde_problem != [::] /\
  (let up := up_pass_uniform_2D_ItI new_source pde_problem in
   up.2 = (do _ <- local_solve_stage_uniform_2D_ItI up.1; raise ValueError_unpack)
   /\ forall out, up.2 <> ret out).
Proof.
split; first by [].
exact: (@up_pass_raises_on_merged_tree _ 8 1 4
          (Source2 (nseq 4 (const_mx 1))) (example_problem true) isT).
Defined.

(** On the example the local solve succeeds, and the upward pass stops at
    the unpacking of the shape. *)
Lemma example_up_pass_unpack :
  (up_pass_uniform_2D_ItI (Source2 (nseq 4 (const_mx 1))) (example_problem true)).2
  = raise ValueError_unpack.
Proof.
rewrite (@up_pass_result_on_merged_tree _ 8 1 4
           (Source2 (nseq 4 (const_mx 1))) (example_problem true) isT).
by rewrite up_pass_state /local_solve_stage_uniform_2D_ItI /= /local_solve_rank3
     /vmapped_get_ItI /= !index_last_0E.
Qed.

Lemma solve_source_guard_ignores_uniform_witness :
  let pde_problem := example_problem false in
  let boundary_data := BoundaryArray (nseq 8 (0 : rat)) in
  let new_source : source_array rat 8 1 := Source2 (nseq 4 (const_mx 1)) in
  [/\ bool_2D (domain pde_problem), use_ItI pde_problem,
      ~~ bool_uniform (domain pde_problem)
    & let out := solve pde_problem boundary_data (Some new_source) in
      out = _up_then_down_pass pde_problem boundary_data new_source
      /\ source out.1 = Some (@Source3 rat 8 1 1 (nseq 4 (const_mx 1)))].
Proof.
split; [by [] | by [] | by [] | ].
exact: (@solve_source_guard_ignores_uniform _ 8 1 4 (example_problem false)
          (BoundaryArray (nseq 8 0)) (Source2 (nseq 4 (const_mx 1))) isT isT isT).
Defined.



(* ------------------------------------------------------------------ *)
(** ** Further properties of the leaf solves *)

Section LeafSolveFacts.

Variable F : fieldType.
Variables nb ni nq : nat.

Lemma at_from_set0 (m1 m2 n : nat) (X : 'M[F]_(m2, n)) :
  at_from_set (0 : 'M[F]_(m1 + m2, n)) X = col_mx 0 X.
Proof. by rewrite /at_from_set; congr col_mx; apply/matrixP=> i j; rewrite !mxE. Qed.

(** X1.  For a leaf whose interior block is invertible, [get_DtN] solves
    the leaf problem at the Chebyshev nodes: for Dirichlet data g, Y g is
    P g on the boundary nodes and is annihilated by the interior rows of
    the operator; v is zero on the boundary nodes and the interior rows of
    the operator map it to the interior part of the source. *)
Theorem get_DtN_solves_leaf_problem
  (source_term : 'cV[F]_(nb + ni)) (diff_operator : 'M[F]_(nb + ni))
  (Q : 'M[F]_(nq, nb + ni)) (P : 'M[F]_(nb, nq)) :
  drsubmx diff_operator \in unitmx ->
  let '(Y, T, v, h) := get_DtN source_term diff_operator Q P in
  [/\ usubmx Y = P, dsubmx diff_operator *m Y = 0,
      usubmx v = 0 & dsubmx diff_operator *m v = dsubmx source_term].
Proof.
move=> A_ii_unit; rewrite /get_DtN at_set_both at_from_set0 scaleN1r mulNmx.
have -> : dsubmx diff_operator = row_mx (dlsubmx diff_operator) (drsubmx diff_operator).
  by rewrite -{1}[diff_operator]submxK block_mxEv col_mxKd.
rewrite col_mxKu mulmxA !mul_row_col mulmx1 mulmxN mulmxA mulmxV // mul1mx subrr mul0mx.
by rewrite mulmx0 add0r mulKVmx // mul_col_mx col_mxKu mul1mx.
Qed.

(** X2.  Superposition in [get_DtN], for a leaf whose interior block is
    invertible: the solution operator Y and the DtN map T do not depend on
    the source, and the particular solution v and its flux h are linear
    in it. *)
Theorem get_DtN_superposition (a : F)
  (source_1 source_2 : 'cV[F]_(nb + ni)) (diff_operator : 'M[F]_(nb + ni))
  (Q : 'M[F]_(nq, nb + ni)) (P : 'M[F]_(nb, nq)) :
  drsubmx diff_operator \in unitmx ->
  let '(Y, T, v, h) := get_DtN (a *: source_1 + source_2) diff_operator Q P in
  let '(Y1, T1, v1, h1) := get_DtN source_1 diff_operator Q P in
  let '(Y2, T2, v2, h2) := get_DtN source_2 diff_operator Q P in
  [/\ Y = Y1 /\ Y = Y2, T = T1 /\ T = T2, v = a *: v1 + v2 & h = a *: h1 + h2].
Proof.
move=> _; rewrite /get_DtN !at_from_set0.
have vE : col_mx 0 (invmx (drsubmx diff_operator) *m dsubmx (a *: source_1 + source_2))
          = a *: col_mx 0 (invmx (drsubmx diff_operator) *m dsubmx source_1)
            + col_mx 0 (invmx (drsubmx diff_operator) *m dsubmx source_2)
            :> 'cV[F]_(nb + ni).
  by rewrite scale_col_mx add_col_mx scaler0 addr0 linearP /= mulmxDr -scalemxAr.
by split=> //; rewrite vE // mulmxDr -scalemxAr.
Qed.

(** X3.  For a leaf on which the matrix B (the rows of G over the interior
    rows of the operator) is invertible, [get_ItI] solves the leaf problem
    with impedance data: for incoming data g, Y g has incoming impedance
    P g and is annihilated by the interior rows of the operator; v has
    zero incoming impedance and the interior rows of the operator map it
    to the interior part of the source(s); T and h are their outgoing
    impedances. *)
Theorem get_ItI_solves_leaf_problem (nsrc : nat)
  (diff_operator : 'M[F]_(nb + ni)) (source_term : 'M[F]_(nb + ni, nsrc))
  (P : 'M[F]_(nb, nq)) (QH : 'M[F]_(nq, nb + ni)) (G : 'M[F]_(nb, nb + ni)) :
  col_mx G (dsubmx diff_operator) \in unitmx ->
  let '(T, Y, h, v) := get_ItI diff_operator source_term P QH G in
  [/\ G *m Y = P /\ dsubmx diff_operator *m Y = 0,
      G *m v = 0 /\ dsubmx diff_operator *m v = dsubmx source_term,
      T = QH *m Y & h = QH *m v].
Proof.
move=> B_unit; rewrite /get_ItI at_set_both.
set B := col_mx G _ in B_unit *; set B_inv := invmx B.
have [GL GR AL AR] :
    [/\ G *m lsubmx B_inv = 1%:M, G *m rsubmx B_inv = 0,
        dsubmx diff_operator *m lsubmx B_inv = 0
      & dsubmx diff_operator *m rsubmx B_inv = 1%:M].
  have := mulmxV B_unit; rewrite -/B_inv -{1}[B_inv]hsubmxK {1}/B mul_col_row.
  by rewrite scalar_mx_block => /eq_block_mx[].
by split=> //; rewrite !mulmxA ?GL ?GR ?AL ?AR ?mul1mx ?mul0mx.
Qed.

End LeafSolveFacts.

(* ------------------------------------------------------------------ *)
(** ** Further properties of the operator assembly *)

Section AssembleSumFacts.

Variable F : fieldType.
Variable n : nat.
Implicit Types (diff_ops : seq 'M[F]_n) (coeffs_lst : seq (option (batch F n))).

(** The einsum of [_add] is the product with the diagonal matrix of the
    coefficients, as the comment in [_add] has it. *)
Lemma einsum_ab_a_diag (D : 'M[F]_n) (c : 'cV[F]_n) : einsum_ab_a D c = diag_mx c^T *m D.
Proof. by rewrite mul_diag_mx; apply/matrixP=> a b; rewrite !mxE mulrC. Qed.

Lemma sum_present_termsE diff_ops (i : nat) (coeffs : seq (option 'cV[F]_n)) :
  sum_present_terms diff_ops i coeffs
  = \sum_(k < size coeffs)
      (if nth None coeffs k is Some c then diag_mx c^T *m nth 0 diff_ops (i + k) else 0).
Proof.
elim: coeffs i => [|c cs IH] i /=; first by rewrite big_ord0.
rewrite big_ord_recl /= addn0 IH; congr (_ + _).
  by case: c => [c|] //; rewrite einsum_ab_a_diag.
by apply: eq_bigr => k _; rewrite /bump /= add1n addSnnS.
Qed.

(** X5.  [assemble_diff_operator], run on what [_gather_coeffs_2D] builds
    from a list of optional coefficient vectors, one for each operator of
    diff_ops at most, returns the sum over the terms that are present of
    diag(coeff_k) @ diff_ops[k]: the counter of the loop pairs each
    gathered coefficient with the operator of its own term, and absent
    terms add nothing. *)
Theorem assemble_diff_operator_sum diff_ops (coeffs : seq (option 'cV[F]_n)) :
  (size coeffs <= size diff_ops)%N ->
  assemble_diff_operator (pmap id coeffs) [seq isSome c | c <- coeffs] diff_ops
  = \sum_(k < size coeffs)
      (if nth None coeffs k is Some c then diag_mx c^T *m nth 0 diff_ops k else 0).
Proof. by move=> _; rewrite assemble_diff_operatorE sum_present_termsE. Qed.

(** X6.  With the six operators stacked in diff_ops, when some
    coefficient array is present and all of them have [n_leaves] leaves,
    gathering and batched assembly return one operator per leaf, and the operator of leaf l is the sum over the present terms
    of diag(coeff_k[l]) @ diff_ops[k]. *)
Theorem gather_and_assemble_leaf_operators (n_leaves : nat) diff_ops
  (a b c d e f : option (batch F n)) :
  let coeffs_lst := [:: a; b; c; d; e; f] in
  size diff_ops = 6%N ->
  all_have_leaves n_leaves coeffs_lst -> has isSome coeffs_lst ->
  exists2 ops, gather_and_assemble diff_ops a b c d e f = ret ops
    & size ops = n_leaves /\
      forall l, (l < n_leaves)%N ->
        nth 0 ops l
        = \sum_(k < 6)
            (if nth None coeffs_lst k is Some coeff
             then diag_mx (nth 0 coeff l)^T *m nth 0 diff_ops k else 0).
Proof.
move=> coeffs_lst _ leaves some.
rewrite gather_and_assembleE (gather_and_assemble_lstE _ leaves some).
eexists; first by []; split; first by rewrite size_map size_iota.
move=> l l_lt; rewrite (nth_map 0%N) ?size_iota // nth_iota // add0n.
rewrite sum_present_termsE size_map; apply: eq_bigr => k _.
by rewrite (nth_map None) //; case: (nth None coeffs_lst k).
Qed.

(** X7.  Two coefficient arrays with different numbers of leaves cannot
    be stacked: [_gather_coeffs_2D] raises, and so does every local solve
    stage that starts with it. *)
Theorem gather_coeffs_ragged_raises diff_ops (a b c d e f : option (batch F n))
  (j k : nat) (x y : batch F n) :
  let coeffs_lst := [:: a; b; c; d; e; f] in
  nth None coeffs_lst j = Some x -> nth None coeffs_lst k = Some y ->
  size x != size y ->
  _gather_coeffs_2D a b c d e f = raise ValueError_stack
  /\ gather_and_assemble diff_ops a b c d e f = raise ValueError_stack.
Proof.
move=> coeffs_lst coeff_j coeff_k sizes.
have gathered z i : nth None coeffs_lst i = Some z -> z \in pmap id coeffs_lst.
  move=> coeff_i; rewrite mem_pmap map_id -coeff_i mem_nth //.
  by case: leqP coeff_i => // /(nth_default None) ->.
have raises : jnp_array (pmap id coeffs_lst) = raise ValueError_stack.
  rewrite /jnp_array; case: ifP => // /allP same; case/negP: sizes.
  by rewrite (eqP (same _ (gathered _ _ coeff_j))) (eqP (same _ (gathered _ _ coeff_k))).
by rewrite /gather_and_assemble /_gather_coeffs_2D /gather_coeffs -/coeffs_lst raises.
Qed.

End AssembleSumFacts.

(* ------------------------------------------------------------------ *)
(** ** Further properties of the ItI local solve stage, the upward pass
       and [solve] *)

Section StageFacts.

Variable F : fieldType.
Variables nb ni nq : nat.
Implicit Types (pde_problem : PDEProblem F nb ni nq).
Implicit Types (new_source : source_array F nb ni).

(** The operators that the stage assembles from the coefficients of the
    problem. *)
Local Notation all_diff_operators pde_problem :=
  (gather_and_assemble
     [:: D_xx pde_problem; D_xy pde_problem; D_yy pde_problem;
         D_x pde_problem; D_y pde_problem; 1%:M]
     (D_xx_coefficients pde_problem) (D_xy_coefficients pde_problem)
     (D_yy_coefficients pde_problem) (D_x_coefficients pde_problem)
     (D_y_coefficients pde_problem) (I_coefficients pde_problem)).

Lemma index_last_0_empty (m : nat) (x : seq 'M[F]_(m, 0)) :
  index_last_0 x = raise IndexError_axis.
Proof. by rewrite /index_last_0; case: insubP. Qed.

(** What [local_solve_rank3] returns, when it returns. *)
Lemma local_solve_rank3_ret (nsrc : nat) (ops : seq 'M[F]_(nb + ni))
  (a : seq 'M[F]_(nb + ni, nsrc)) pde_problem Y_arr R_arr v_arr h_arr :
  local_solve_rank3 ops a pde_problem = ret (Y_arr, R_arr, v_arr, h_arr) ->
  [/\ size ops = size a,
      Y_arr = [seq (get_ItI A (0 : 'M[F]_(nb + ni, 0)) (P pde_problem)
                      (QH pde_problem) (G pde_problem)).1.1.2 | A <- ops],
      R_arr = [seq (get_ItI A (0 : 'M[F]_(nb + ni, 0)) (P pde_problem)
                      (QH pde_problem) (G pde_problem)).1.1.1 | A <- ops],
      size v_arr = size a & size h_arr = size a].
Proof.
rewrite /local_solve_rank3 /vmapped_get_ItI; case: eqP => //= sizes.
case: nsrc a sizes => [|nsrc] a sizes; first by rewrite index_last_0_empty.
rewrite !index_last_0E /= => -[<- <- <- <-].
rewrite -!map_comp !size_map size_zip sizes minnn; split=> //.
- rewrite -[in RHS](@unzip1_zip _ _ ops a) ?sizes // /unzip1 -map_comp.
  by apply: eq_map => -[A s].
- rewrite -[in RHS](@unzip1_zip _ _ ops a) ?sizes // /unzip1 -map_comp.
  by apply: eq_map => -[A s].
Qed.

(** X8.  When [local_solve_stage_uniform_2D_ItI] returns, the problem had
    a source, and each of the four arrays returned has one entry per
    leaf of the source array. *)
Theorem local_solve_returns_one_entry_per_leaf pde_problem Y_arr R_arr v_arr h_arr :
  local_solve_stage_uniform_2D_ItI pde_problem = ret (Y_arr, R_arr, v_arr, h_arr) ->
  exists2 source_term, source pde_problem = Some source_term
    & [/\ size Y_arr = n_leaves_of source_term, size R_arr = n_leaves_of source_term,
          size v_arr = n_leaves_of source_term
        & size h_arr = n_leaves_of source_term].
Proof.
rewrite /local_solve_stage_uniform_2D_ItI.
case: (all_diff_operators pde_problem) => [e|ops] //=.
case: (source pde_problem) => [[a|nsrc a]|] //= /local_solve_rank3_ret[sizes -> -> -> ->];
  by eexists; first by []; rewrite /= !size_map sizes.
Qed.

(** X9.  A source array whose number of leaves differs from that of the
    assembled operators cannot be mapped over together with them: the
    stage raises. *)
Theorem local_solve_leaf_count_mismatch pde_problem new_source ops :
  all_diff_operators pde_problem = ret ops ->
  size ops != n_leaves_of new_source ->
  local_solve_stage_uniform_2D_ItI (set_source pde_problem new_source)
  = raise ValueError_vmap.
Proof.
rewrite /local_solve_stage_uniform_2D_ItI /= => -> /=.
by case: new_source => [a|nsrc a] /= /negPf sizes;
   rewrite /local_solve_rank3 /vmapped_get_ItI sizes.
Qed.

(** X10.  A source array with an empty source axis, of shape
    (n_leaves, p**2, 0), has no source at index 0: the stage raises an
    IndexError after the leaf solves. *)
Theorem local_solve_empty_source_axis pde_problem (a : seq 'M[F]_(nb + ni, 0)) ops :
  all_diff_operators pde_problem = ret ops -> size ops = size a ->
  local_solve_stage_uniform_2D_ItI (set_source pde_problem (Source3 a))
  = raise IndexError_axis.
Proof.
rewrite /local_solve_stage_uniform_2D_ItI /= => -> /= sizes.
by rewrite /local_solve_rank3 /vmapped_get_ItI sizes eqxx /= index_last_0_empty.
Qed.

(** X11.  The solution operators Y and the ItI maps R of the leaves do not
    depend on the source: two local solves of one problem, with any two
    source arrays, return the same Y and R. *)
Theorem local_solve_operators_ignore_source pde_problem (source_1 source_2 : source_array F nb ni)
  Y_1 R_1 v_1 h_1 Y_2 R_2 v_2 h_2 :
  local_solve_stage_uniform_2D_ItI (set_source pde_problem source_1)
    = ret (Y_1, R_1, v_1, h_1) ->
  local_solve_stage_uniform_2D_ItI (set_source pde_problem source_2)
    = ret (Y_2, R_2, v_2, h_2) ->
  Y_1 = Y_2 /\ R_1 = R_2.
Proof.
rewrite /local_solve_stage_uniform_2D_ItI /=.
case: (all_diff_operators pde_problem) => [e|ops] //=.
by case: source_1 => [a1|nsrc1 a1]; case: source_2 => [a2|nsrc2 a2];
   move=> /local_solve_rank3_ret[_ -> -> _ _] /local_solve_rank3_ret[_ -> -> _ _].
Qed.

(** X12.  On a problem without merge levels, the upward pass with a
    multi-source array returns the particular solutions of the local
    solve, those of the first source, and an empty list of interface
    data. *)
Theorem up_pass_without_levels_multi_source pde_problem (nsrc : nat)
  (a : seq 'M[F]_(nb + ni, nsrc)) :
  D_inv_lst pde_problem = [::] ->
  (up_pass_uniform_2D_ItI (Source3 a) pde_problem).2
  = (do out <- local_solve_stage_uniform_2D_ItI (set_source pde_problem (Source3 a));
     let '(Y_arr, R_arr, v_arr, h_arr) := out in
     ret (Rank2 [seq seq_of_col c | c <- v_arr], [::])).
Proof.
move=> D_nil; rewrite /up_pass_uniform_2D_ItI [in LHS]/=.
case: local_solve_stage_uniform_2D_ItI => [e|[[[Y_arr R_arr] v_arr] h_arr]] //=.
by rewrite D_nil.
Qed.

(** X15.  Without a source, [solve] on a problem that is not uniform goes
    to the adaptive down pass, of 2D or 3D as the domain says, and needs
    the boundary data as a list: an array is rejected. *)
Theorem solve_adaptive_needs_list pde_problem (boundary_data : boundary F) :
  ~~ bool_uniform (domain pde_problem) ->
  solve pde_problem boundary_data None
  = (pde_problem,
     match boundary_data with
     | BoundaryArray _ => raise ValueError_adaptive_needs_list
     | BoundaryList lst =>
         ret (CallAdaptive
                (if bool_2D (domain pde_problem) then down_pass_adaptive_2D_DtN
                 else down_pass_adaptive_3D_DtN)
                pde_problem lst)
     end).
Proof. by rewrite /solve /_adaptive_solve => ->; case: boundary_data. Qed.

(** X16.  Without a source, [solve] on a uniform problem treats a list of
    boundary arrays as their concatenation: a non-empty list and the
    concatenated array lead to the same down-pass call, which is never an
    adaptive one, and the empty list is rejected. *)
Theorem solve_uniform_concatenates_list pde_problem (lst : seq (seq F)) :
  bool_uniform (domain pde_problem) -> lst != [::] ->
  [/\ solve pde_problem (BoundaryList [::]) None
      = (pde_problem, raise ValueError_concatenate),
      solve pde_problem (BoundaryList lst) None
      = solve pde_problem (BoundaryArray (flatten lst)) None
    & exists down_pass_fn,
        (solve pde_problem (BoundaryList lst) None).2
        = ret (CallUniform down_pass_fn (BoundaryArray (flatten lst))
                 (S_lst pde_problem) (g_tilde_lst pde_problem)
                 (Y pde_problem) (v pde_problem))].
Proof.
move=> uniform; rewrite /solve uniform /=.
by case: lst => // x lst _ /=; split=> //; eexists.
Qed.

End StageFacts.

(* ------------------------------------------------------------------ *)
(** ** Further properties of [assemble_boundary_data] *)

Section BoundarySplitFacts.

Variable R : nzRingType.
Variable E : lmodType R.

Lemma slice_cat (T : Type) (a b c : nat) (x : seq T) :
  (a <= b)%N -> (b <= c)%N -> slice a c x = slice a b x ++ slice b c x.
Proof.
move=> le_ab le_bc; rewrite /slice -[drop a (take c x)](cat_take_drop (b - a)).
by rewrite take_drop drop_drop !subnK // take_takel.
Qed.

Lemma slice_all (T : Type) (x : seq T) : slice 0 (size x) x = x.
Proof. by rewrite /slice drop0 take_size. Qed.

Lemma size_slice (T : Type) (a b : nat) (x : seq T) :
  (b <= size x)%N -> size (slice a b x) = (b - a)%N.
Proof. by move=> le_b; rewrite /slice size_drop size_takel. Qed.

Lemma last_n_slice (T : Type) (nside : nat) (x : seq T) :
  size x = (4 * nside)%N -> last_n nside x = slice (3 * nside) (4 * nside) x.
Proof.
move=> size_x; rewrite /last_n /slice -size_x take_size size_x.
case: eqP => [nside0|_]; last by congr drop; rewrite -multE -minusE; lia.
by move: size_x; rewrite nside0 muln0 => /size0nil ->.
Qed.

(** A side-ordered boundary vector, cut into its four sides. *)
Lemma four_sides (T : Type) (nside : nat) (x : seq T) :
  size x = (4 * nside)%N ->
  x = slice 0 nside x ++ slice nside (2 * nside) x
      ++ slice (2 * nside) (3 * nside) x ++ slice (3 * nside) (4 * nside) x.
Proof.
move=> size_x; rewrite -!slice_cat ?leq_pmull ?leq_mul2r ?orbT //.
by rewrite -size_x slice_all.
Qed.

(** X17.  [assemble_boundary_data] uses every entry of the four children
    exactly once: the entries on the four merge interfaces (h_int_child)
    and those on the boundary of the merged node (h_ext_child) are,
    together, the entries of h_in. *)
Theorem assemble_boundary_data_splits_children (nside : nat) (h_in : seq (seq E)) :
  size h_in = 4%N -> all (fun h_child => size h_child == (4 * nside)%N) h_in ->
  (size (nth [::] h_in 0) %/ 4)%N = nside
  /\ perm_eq (h_int_child_of nside h_in ++ h_ext_child_of nside h_in) (flatten h_in).
Proof.
case: h_in => [|h_a [|h_b [|h_c [|h_d [|]]]]] //= _.
move=> /andP[/eqP size_a /andP[/eqP size_b /andP[/eqP size_c /andP[/eqP size_d _]]]].
split; first by rewrite size_a mulKn.
rewrite /h_int_child_of /h_ext_child_of /= !last_n_slice // cats0.
rewrite (@slice_cat _ 0 nside (2 * nside)) ?leq_pmull //.
rewrite (@slice_cat _ nside (2 * nside) (3 * nside)) ?leq_pmull ?leq_mul2r ?orbT //.
rewrite (@slice_cat _ (2 * nside) (3 * nside) (4 * nside)) ?leq_mul2r ?orbT //.
rewrite [in X in perm_eq _ X](four_sides size_a) [in X in perm_eq _ X](four_sides size_b).
rewrite [in X in perm_eq _ X](four_sides size_c) [in X in perm_eq _ X](four_sides size_d).
by apply/permP=> pr; rewrite /flipud !count_cat !count_rev -!plusE; lia.
Qed.

Lemma size_reindex_r (nside : nat) : size (reindex_r nside) = (8 * nside)%N.
Proof. by rewrite (perm_size (reindex_r_perm_iota nside)) size_iota. Qed.

(** X18.  For four children with 4 * nside entries each and operators of
    shape (8 * nside, 8 * nside), both arrays that [assemble_boundary_data] returns have
    8 * nside entries. *)
Theorem assemble_boundary_data_sizes (nside : nat) (h_in : seq (seq E))
  (D_inv BD_inv : seq (seq R)) :
  size h_in = 4%N -> all (fun h_child => size h_child == (4 * nside)%N) h_in ->
  size D_inv = (8 * nside)%N -> all (fun row => size row == (8 * nside)%N) D_inv ->
  size BD_inv = (8 * nside)%N -> all (fun row => size row == (8 * nside)%N) BD_inv ->
  let '(h, g_tilde) := assemble_boundary_data h_in D_inv BD_inv in
  size h = (8 * nside)%N /\ size g_tilde = (8 * nside)%N.
Proof.
case: h_in => [|h_a [|h_b [|h_c [|h_d [|]]]]] //= _.
move=> /andP[/eqP size_a /andP[/eqP size_b /andP[/eqP size_c /andP[/eqP size_d _]]]].
move=> size_D _ size_BD _; rewrite /assemble_boundary_data /= size_a mulKn //.
rewrite /take_indices size_map size_reindex_r; split=> //.
rewrite /roll_neg size_rot /vsub size_map size_zip /matvec size_map size_BD.
rewrite /h_ext_child_of /= !size_cat last_n_slice // !size_slice ?size_a ?size_b ?size_c ?size_d
  ?leq_mul2r ?orbT // ?leq_pmull //.
rewrite (_ : (_ + _)%N = (8 * nside)%N) ?minnn //.
by rewrite -!plusE -!minusE -!multE; lia.
Qed.

End BoundarySplitFacts.

(* ------------------------------------------------------------------ *)
(** ** Further properties of the chunk loops *)

Section ChunkFacts.

Variable get_fused_chunksize_2D : nat -> dtype -> nat -> nat * nat.

Lemma chunk_loop_sizes (n_leaves chunksize n_chunks : nat) :
  (n_chunks * chunksize <= n_leaves)%N ->
  all (fun chunk => size chunk == chunksize) (chunk_loop n_leaves chunksize n_chunks).
Proof.
move=> le_n; apply/allP=> chunk /mapP[i]; rewrite mem_iota add0n /= => i_lt ->.
rewrite chunk_leaves ?size_iota //.
by apply: leq_trans le_n; rewrite leq_mul2r i_lt orbT.
Qed.

Lemma divn_mul_floor (n d : nat) : (n %/ d * d = n - n %% d)%N.
Proof. by rewrite {2}(divn_eq n d) addnK. Qed.

(** X20.  For every positive chunk size that is at most the number of
    leaves, the DtN controller hands to the
    local solve the first n_leaves - n_leaves % chunksize leaves, in
    order and each once, in chunks of exactly chunksize leaves; the last
    n_leaves % chunksize leaves are handed to no local solve. *)
Theorem fused_DtN_solves_whole_chunks_only (p n_leaves : nat) :
  let chunksize := (get_fused_chunksize_2D p float64 n_leaves).1 in
  (0 < chunksize <= n_leaves)%N ->
  exists2 chunks,
    _fused_local_solve_and_build_2D get_fused_chunksize_2D p n_leaves = ret chunks
    & [/\ flatten chunks = iota 0 (n_leaves - n_leaves %% chunksize),
          all (fun chunk => size chunk == chunksize) chunks
        & size chunks = (n_leaves %/ chunksize)%N].
Proof.
rewrite /_fused_local_solve_and_build_2D.
case: (get_fused_chunksize_2D p float64 n_leaves) => c l /= /andP[c_gt0 _].
rewrite eqn0Ngt c_gt0 /=; eexists; first by [].
rewrite chunk_loop_floor divn_mul_floor chunk_loop_sizes ?leq_divM //.
by rewrite /chunk_loop size_map size_iota.
Qed.

(** X21.  The ItI controller differs when exactly one whole chunk fits
    (chunksize <= n_leaves < 2 * chunksize): it then solves all the leaves
    in one call, the remainder included; otherwise it, too, solves only
    the first n_leaves - n_leaves % chunksize leaves. *)
Theorem fused_ItI_single_chunk_solves_all (p n_leaves : nat) :
  let chunksize := (get_fused_chunksize_2D p complex128 n_leaves).1 in
  (0 < chunksize <= n_leaves)%N ->
  exists2 chunks,
    _fused_local_solve_and_build_2D_ItI get_fused_chunksize_2D p n_leaves = ret chunks
    & flatten chunks
      = iota 0 (if (n_leaves < 2 * chunksize)%N then n_leaves
                else (n_leaves - n_leaves %% chunksize)%N).
Proof.
rewrite /_fused_local_solve_and_build_2D_ItI.
case: (get_fused_chunksize_2D p complex128 n_leaves) => c l /= /andP[c_gt0 c_le].
rewrite eqn0Ngt c_gt0 /=.
have -> : (n_leaves < 2 * c)%N = (n_leaves %/ c == 1)%N.
  rewrite -[LHS]/(true && _) -c_le.
  by rewrite -{1}[c]mul1n -leq_divRL // -ltn_divLR // ltnS -eqn_leq eq_sym.
case: ifP => _; first by exists [:: iota 0 n_leaves]; rewrite //= cats0.
by eexists; first by []; rewrite chunk_loop_floor divn_mul_floor.
Qed.

End ChunkFacts.

(* ------------------------------------------------------------------ *)
(** ** Properties of the wave scattering utilities *)

Section BatchFacts.

Lemma slice_iota (a b n : nat) :
  (b <= n)%N -> slice a b (iota 0 n) = iota a (b - a).
Proof. by move=> le_b; rewrite /slice take_iota (minn_idPl le_b) drop_iota add0n. Qed.

(** The first [j] batches of size [s] of [n] items. *)
Lemma batches_prefix (n s j : nat) :
  flatten [seq slice (k * s) (minn (k * s + s) n) (iota 0 n) | k <- iota 0 j]
  = iota 0 (minn (j * s) n).
Proof.
elim: j => [|j IH]; first by rewrite mul0n min0n.
have -> : iota 0 j.+1 = iota 0 j ++ [:: j] by rewrite -addn1 iotaD.
rewrite map_cat flatten_cat IH /= cats0 slice_iota ?geq_minr // mulSn [(s + _)%N]addnC.
case: (leqP (j * s) n) => [le_n|/ltnW gt_n].
  rewrite -[in RHS](@subnKC (j * s) (minn (j * s + s) n)) ?iotaD ?add0n //.
  by rewrite leq_min leq_addr.
rewrite (minn_idPr _) ?(leq_trans gt_n) ?leq_addr //.
by rewrite (eqP (_ : (n - j * s)%N == 0%N)) ?cats0 // subn_eq0.
Qed.

Lemma ceil_div_bounds (n s : nat) :
  (0 < s)%N ->
  (n <= (n + s - 1) %/ s * s)%N
  /\ forall k, (k < (n + s - 1) %/ s)%N -> (k * s < n)%N.
Proof.
move=> s_gt0; have := divn_eq (n + s - 1) s; have := ltn_pmod (n + s - 1) s_gt0.
move: ((n + s - 1) %/ s)%N ((n + s - 1) %% s)%N => q r r_lt nE; split.
  apply/leP; move: nE r_lt s_gt0; move: (q * s)%N => qs.
  by rewrite -!plusE -minusE => ? /ltP ? /ltP ?; lia.
move=> k k_lt; have : (k.+1 * s <= q * s)%N by rewrite leq_mul2r k_lt orbT.
rewrite mulSn => /leP; move: nE r_lt s_gt0; move: (q * s)%N (k * s)%N => qs ks.
by rewrite -!plusE -minusE => ? /ltP ? /ltP ? ?; apply/ltP; lia.
Qed.

(** X22.  The loop over batches of sources that ends
    [solve_scattering_problem] takes every source exactly once, in order,
    whatever the number of sources: the batches are non-empty, have at
    most INTERP_BATCH_SIZE sources, and the last one is cut at n_src. *)
Theorem interp_batches_cover_sources (n_src : nat) :
  flatten (interp_batches n_src) = iota 0 n_src
  /\ all (fun sources => (0 < size sources <= INTERP_BATCH_SIZE)%N) (interp_batches n_src).
Proof.
have s_gt0 : (0 < INTERP_BATCH_SIZE)%N by [].
have [le_n lt_n] := ceil_div_bounds n_src s_gt0.
have batchesE : interp_batches n_src
    = [seq slice (k * INTERP_BATCH_SIZE) (minn (k * INTERP_BATCH_SIZE + INTERP_BATCH_SIZE) n_src)
             (iota 0 n_src)
      | k <- iota 0 ((n_src + INTERP_BATCH_SIZE - 1) %/ INTERP_BATCH_SIZE)].
  by rewrite /interp_batches /range_step -map_comp subn0; apply: eq_map => k /=; rewrite add0n.
rewrite batchesE batches_prefix (minn_idPr le_n); split=> //.
apply/allP=> sources /mapP[k]; rewrite mem_iota add0n /= => /lt_n k_lt ->.
rewrite slice_iota ?geq_minr // size_iota subn_gt0 leq_subLR addnC geq_minl andbT.
by rewrite leq_min k_lt andbT -[X in (X < _)%N]add0n ltn_add2r.
Qed.

End BatchFacts.

Section WaveScatteringFacts.

Variable C : numClosedFieldType.

(** X23.  When R - I is invertible, the matrix T that [get_DtN_from_ItI]
    returns is a DtN map of which R is the ItI map: R sends the incoming
    impedance data T u + i eta u of any u to the outgoing impedance data
    T u - i eta u. *)
Theorem get_DtN_from_ItI_maps_impedance (n : nat) (R : 'M[C]_n) (eta : C) :
  R - 1%:M \in unitmx ->
  let T := get_DtN_from_ItI R eta in
  R *m (T + ('i * eta)%:M) = T - ('i * eta)%:M.
Proof.
move=> R1_unit; rewrite /get_DtN_from_ItI /linalg_solve /=.
set X := invmx _ *m _; set c := 'i * eta.
have XE : R *m X = R + 1%:M + X.
  have /eqP := mulKVmx R1_unit (R + 1%:M).
  by rewrite -/X mulmxBl mul1mx subr_eq => /eqP.
rewrite mulNr -/c mulmxDr -scalemxAr XE mul_mx_scalar !scalerDr !scaleNr scalemx1.
by rewrite addrC !addrA subrr add0r addrC.
Qed.

End WaveScatteringFacts.

(* ------------------------------------------------------------------ *)
(** ** The further properties on concrete inputs *)

Lemma get_DtN_solves_leaf_problem_witness :
  let diff_operator : 'M[rat]_(8 + 1) := 1%:M in
  let source_term : 'cV[rat]_(8 + 1) := const_mx 1 in
  let Q : 'M[rat]_(4, 8 + 1) := 0 in
  let P : 'M[rat]_(8, 4) := 0 in
  drsubmx diff_operator \in unitmx /\
  (let '(Y, T, v, h) := get_DtN source_term diff_operator Q P in
   [/\ usubmx Y = P, dsubmx diff_operator *m Y = 0,
       usubmx v = 0 & dsubmx diff_operator *m v = dsubmx source_term]).
Proof.
have A_ii_unit : drsubmx (1%:M : 'M[rat]_(8 + 1)) \in unitmx.
  by rewrite scalar_mx_block block_mxKdr unitmx1.
split; first exact: A_ii_unit.
exact: (@get_DtN_solves_leaf_problem _ 8 1 4 (const_mx 1) 1%:M 0 0 A_ii_unit).
Defined.

Lemma get_DtN_superposition_witness :
  let diff_operator : 'M[rat]_(8 + 1) := 1%:M in
  let source_1 : 'cV[rat]_(8 + 1) := const_mx 1 in
  let source_2 : 'cV[rat]_(8 + 1) := const_mx 2 in
  let Q : 'M[rat]_(4, 8 + 1) := const_mx 1 in
  let P : 'M[rat]_(8, 4) := 0 in
  drsubmx diff_operator \in unitmx /\
  (let '(Y, T, v, h) := get_DtN (3 *: source_1 + source_2) diff_operator Q P in
   let '(Y1, T1, v1, h1) := get_DtN source_1 diff_operator Q P in
   let '(Y2, T2, v2, h2) := get_DtN source_2 diff_operator Q P in
   [/\ Y = Y1 /\ Y = Y2, T = T1 /\ T = T2, v = 3 *: v1 + v2 & h = 3 *: h1 + h2]).
Proof.
have A_ii_unit : drsubmx (1%:M : 'M[rat]_(8 + 1)) \in unitmx.
  by rewrite scalar_mx_block block_mxKdr unitmx1.
split; first exact: A_ii_unit.
exact: (@get_DtN_superposition _ 8 1 4 3 (const_mx 1) (const_mx 2) 1%:M (const_mx 1) 0
          A_ii_unit).
Defined.

Lemma get_ItI_solves_leaf_problem_witness :
  let diff_operator : 'M[rat]_(8 + 1) := 1%:M in
  let source_term : 'M[rat]_(8 + 1, 2) := const_mx 1 in
  let P : 'M[rat]_(8, 4) := 0 in
  let QH : 'M[rat]_(4, 8 + 1) := 0 in
  let G : 'M[rat]_(8, 8 + 1) := row_mx 1%:M 0 in
  col_mx G (dsubmx diff_operator) \in unitmx /\
  (let '(T, Y, h, v) := get_ItI diff_operator source_term P QH G in
   [/\ G *m Y = P /\ dsubmx diff_operator *m Y = 0,
       G *m v = 0 /\ dsubmx diff_operator *m v = dsubmx source_term,
       T = QH *m Y & h = QH *m v]).
Proof.
have B_unit : col_mx (row_mx 1%:M 0 : 'M[rat]_(8, 8 + 1)) (dsubmx (1%:M : 'M[rat]_(8 + 1)))
              \in unitmx.
  have -> : dsubmx (1%:M : 'M[rat]_(8 + 1)) = row_mx 0 1%:M.
    by rewrite scalar_mx_block block_mxEv col_mxKd.
  by rewrite -block_mxEv -scalar_mx_block unitmx1.
split; first exact: B_unit.
exact: (@get_ItI_solves_leaf_problem _ 8 1 4 2 1%:M (const_mx 1) 0 0 (row_mx 1%:M 0) B_unit).
Defined.

Lemma assemble_diff_operator_sum_witness :
  let diff_ops : seq 'M[rat]_9 := nseq 6 1%:M in
  let coeffs : seq (option 'cV[rat]_9) := [:: Some (const_mx 1); None; Some (const_mx 2)] in
  (size coeffs <= size diff_ops)%N /\
  assemble_diff_operator (pmap id coeffs) [seq isSome c | c <- coeffs] diff_ops
  = \sum_(k < size coeffs)
      (if nth None coeffs k is Some c then diag_mx c^T *m nth 0 diff_ops k else 0).
Proof.
split; first by [].
exact: (@assemble_diff_operator_sum _ 9 (nseq 6 1%:M)
          [:: Some (const_mx 1); None; Some (const_mx 2)] isT).
Defined.

Lemma gather_and_assemble_leaf_operators_witness :
  let diff_ops : seq 'M[rat]_9 := nseq 6 1%:M in
  let a : option (batch rat 9) := Some (nseq 4 (const_mx 1)) in
  let coeffs_lst := [:: a; None; None; None; None; None] in
  [/\ size diff_ops = 6%N, all_have_leaves 4 coeffs_lst, has isSome coeffs_lst
    & exists2 ops, gather_and_assemble diff_ops a None None None None None = ret ops
        & size ops = 4%N /\
          forall l, (l < 4)%N ->
            nth 0 ops l
            = \sum_(k < 6)
                (if nth None coeffs_lst k is Some coeff
                 then diag_mx (nth 0 coeff l)^T *m nth 0 diff_ops k else 0)].
Proof.
split; [by [] | by [] | by [] | ].
exact: (@gather_and_assemble_leaf_operators _ 9 4 (nseq 6 1%:M)
          (Some (nseq 4 (const_mx 1))) None None None None None erefl isT isT).
Defined.

Lemma gather_coeffs_ragged_raises_witness :
  let diff_ops : seq 'M[rat]_9 := nseq 6 1%:M in
  let x : batch rat 9 := nseq 4 (const_mx 1) in
  let y : batch rat 9 := nseq 3 (const_mx 1) in
  let coeffs_lst := [:: Some x; Some y; None; None; None; None] in
  [/\ nth None coeffs_lst 0 = Some x, nth None coeffs_lst 1 = Some y, size x != size y
    & _gather_coeffs_2D (Some x) (Some y) None None None None = raise ValueError_stack
      /\ gather_and_assemble diff_ops (Some x) (Some y) None None None None
         = raise ValueError_stack].
Proof.
split; [by [] | by [] | by [] | ].
exact: (@gather_coeffs_ragged_raises _ 9 (nseq 6 1%:M)
          (Some (nseq 4 (const_mx 1))) (Some (nseq 3 (const_mx 1))) None None None None
          0 1 (nseq 4 (const_mx 1)) (nseq 3 (const_mx 1)) erefl erefl isT).
Defined.

(** On the example without merge levels the local solve returns, for a
    single source and for several. *)
Lemma example_local_solve_returns (new_source : source_array rat 8 1) :
  (new_source = Source2 (nseq 4 (const_mx 1))
   \/ new_source = @Source3 rat 8 1 2 (nseq 4 (const_mx 1))) ->
  exists out,
    local_solve_stage_uniform_2D_ItI (set_source example_problem_without_levels new_source)
    = ret out.
Proof.
by case=> ->; rewrite /local_solve_stage_uniform_2D_ItI /= /local_solve_rank3
     /vmapped_get_ItI /= !index_last_0E; eexists.
Qed.

Lemma local_solve_returns_one_entry_per_leaf_witness :
  let pde_problem :=
    set_source example_problem_without_levels (Source2 (nseq 4 (const_mx 1))) in
  exists Y_arr R_arr v_arr h_arr,
    local_solve_stage_uniform_2D_ItI pde_problem = ret (Y_arr, R_arr, v_arr, h_arr)
    /\ exists2 source_term, source pde_problem = Some source_term
         & [/\ size Y_arr = n_leaves_of source_term, size R_arr = n_leaves_of source_term,
               size v_arr = n_leaves_of source_term
             & size h_arr = n_leaves_of source_term].
Proof.
have [[[[Y_arr R_arr] v_arr] h_arr] solved] :=
  example_local_solve_returns (or_introl erefl).
exists Y_arr, R_arr, v_arr, h_arr; split; first exact: solved.
exact: (@local_solve_returns_one_entry_per_leaf _ 8 1 4 _ _ _ _ _ solved).
Defined.

Lemma local_solve_leaf_count_mismatch_witness :
  let pde_problem := example_problem_without_levels in
  let new_source : source_array rat 8 1 := Source2 (nseq 3 (const_mx 1)) in
  exists ops,
    [/\ gather_and_assemble
          [:: D_xx pde_problem; D_xy pde_problem; D_yy pde_problem;
              D_x pde_problem; D_y pde_problem; 1%:M]
          (D_xx_coefficients pde_problem) (D_xy_coefficients pde_problem)
          (D_yy_coefficients pde_problem) (D_x_coefficients pde_problem)
          (D_y_coefficients pde_problem) (I_coefficients pde_problem) = ret ops,
        size ops != n_leaves_of new_source
      & local_solve_stage_uniform_2D_ItI (set_source pde_problem new_source)
        = raise ValueError_vmap].
Proof.
eexists; split; [reflexivity | by [] | ].
exact: (@local_solve_leaf_count_mismatch _ 8 1 4 example_problem_without_levels
          (Source2 (nseq 3 (const_mx 1))) _ erefl isT).
Defined.

Lemma local_solve_empty_source_axis_witness :
  let pde_problem := example_problem_without_levels in
  let a : seq 'M[rat]_(8 + 1, 0) := nseq 4 0 in
  exists ops,
    [/\ gather_and_assemble
          [:: D_xx pde_problem; D_xy pde_problem; D_yy pde_problem;
              D_x pde_problem; D_y pde_problem; 1%:M]
          (D_xx_coefficients pde_problem) (D_xy_coefficients pde_problem)
          (D_yy_coefficients pde_problem) (D_x_coefficients pde_problem)
          (D_y_coefficients pde_problem) (I_coefficients pde_problem) = ret ops,
        size ops = size a
      & local_solve_stage_uniform_2D_ItI (set_source pde_problem (Source3 a))
        = raise IndexError_axis].
Proof.
eexists; split; [reflexivity | by [] | ].
exact: (@local_solve_empty_source_axis _ 8 1 4 example_problem_without_levels
          (nseq 4 0) _ erefl erefl).
Defined.

Lemma local_solve_operators_ignore_source_witness :
  let pde_problem := example_problem_without_levels in
  let source_1 : source_array rat 8 1 := Source2 (nseq 4 (const_mx 1)) in
  let source_2 : source_array rat 8 1 := @Source3 rat 8 1 2 (nseq 4 (const_mx 1)) in
  exists Y_1 R_1 v_1 h_1 Y_2 R_2 v_2 h_2,
    [/\ local_solve_stage_uniform_2D_ItI (set_source pde_problem source_1)
          = ret (Y_1, R_1, v_1, h_1),
        local_solve_stage_uniform_2D_ItI (set_source pde_problem source_2)
          = ret (Y_2, R_2, v_2, h_2)
      & Y_1 = Y_2 /\ R_1 = R_2].
Proof.
have [[[[Y_1 R_1] v_1] h_1] solved_1] := example_local_solve_returns (or_introl erefl).
have [[[[Y_2 R_2] v_2] h_2] solved_2] := example_local_solve_returns (or_intror erefl).
exists Y_1, R_1, v_1, h_1, Y_2, R_2, v_2, h_2; split; [exact: solved_1 | exact: solved_2 | ].
exact: (@local_solve_operators_ignore_source _ 8 1 4 _ _ _ _ _ _ _ _ _ _ _
          solved_1 solved_2).
Defined.

Lemma up_pass_without_levels_multi_source_witness :
  let pde_problem := example_problem_without_levels in
  let a : seq 'M[rat]_(8 + 1, 2) := nseq 4 (const_mx 1) in
  D_inv_lst pde_problem = [::] /\
  (up_pass_uniform_2D_ItI (Source3 a) pde_problem).2
  = (do out <- local_solve_stage_uniform_2D_ItI (set_source pde_problem (Source3 a));
     let '(Y_arr, R_arr, v_arr, h_arr) := out in
     ret (Rank2 [seq seq_of_col c | c <- v_arr], [::])).
Proof.
split; first by [].
exact: (@up_pass_without_levels_multi_source _ 8 1 4 example_problem_without_levels
          2 (nseq 4 (const_mx 1)) erefl).
Defined.

Lemma up_pass_single_source_squeeze_witness :
  let pde_problem := example_problem_without_levels in
  let a : seq 'cV[rat]_(8 + 1) := nseq 4 (const_mx 1) in
  [/\ (8 + 1 != 1)%N, D_inv_lst pde_problem = [::]
    & let up := up_pass_uniform_2D_ItI (Source2 a) pde_problem in
      up.2 = (do _ <- local_solve_stage_uniform_2D_ItI up.1; raise ValueError_squeeze)].
Proof.
split; [by [] | by [] | ].
exact: (@up_pass_single_source_squeeze _ 8 1 4 (nseq 4 (const_mx 1))
          example_problem_without_levels isT erefl).
Defined.

Lemma solve_with_source_on_merged_tree_witness :
  let pde_problem := example_problem true in
  let boundary_data := BoundaryArray (nseq 8 (0 : rat)) in
  let new_source : source_array rat 8 1 := Source2 (nseq 4 (const_mx 1)) in
  [/\ bool_2D (domain pde_problem), use_ItI pde_problem, D_inv_lst pde_problem != [::]
    & forall call, (solve pde_problem boundary_data (Some new_source)).2 <> ret call].
Proof.
split; [by [] | by [] | by [] | ].
exact: (@solve_with_source_on_merged_tree _ 8 1 4 (example_problem true)
          (BoundaryArray (nseq 8 0)) (Source2 (nseq 4 (const_mx 1))) isT isT isT).
Defined.

Lemma solve_adaptive_needs_list_witness :
  let pde_problem := example_problem false in
  let boundary_data := BoundaryArray (nseq 8 (0 : rat)) in
  ~~ bool_uniform (domain pde_problem) /\
  solve pde_problem boundary_data None
  = (pde_problem, raise ValueError_adaptive_needs_list).
Proof.
split; first by [].
exact: (@solve_adaptive_needs_list _ 8 1 4 (example_problem false)
          (BoundaryArray (nseq 8 0)) isT).
Defined.

Lemma solve_uniform_concatenates_list_witness :
  let pde_problem := example_problem true in
  let lst : seq (seq rat) := [:: nseq 4 0; nseq 4 1] in
  [/\ bool_uniform (domain pde_problem), lst != [::]
    & [/\ solve pde_problem (BoundaryList [::]) None
          = (pde_problem, raise ValueError_concatenate),
          solve pde_problem (BoundaryList lst) None
          = solve pde_problem (BoundaryArray (flatten lst)) None
        & exists down_pass_fn,
            (solve pde_problem (BoundaryList lst) None).2
            = ret (CallUniform down_pass_fn (BoundaryArray (flatten lst))
                     (S_lst pde_problem) (g_tilde_lst pde_problem)
                     (Y pde_problem) (v pde_problem))]].
Proof.
split; [by [] | by [] | ].
exact: (@solve_uniform_concatenates_list _ 8 1 4 (example_problem true)
          [:: nseq 4 0; nseq 4 1] isT isT).
Defined.

Lemma assemble_boundary_data_splits_children_witness :
  [/\ size example_h_in = 4%N,
      all (fun h_child => size h_child == (4 * 1)%N) example_h_in
    & (size (nth [::] example_h_in 0) %/ 4)%N = 1%N
      /\ perm_eq (h_int_child_of 1 example_h_in ++ h_ext_child_of 1 example_h_in)
           (flatten example_h_in)].
Proof.
split; [by [] | by [] | ].
exact: (@assemble_boundary_data_splits_children _ _ 1 example_h_in erefl isT).
Defined.

Lemma assemble_boundary_data_sizes_witness :
  let identity := identity_smatrix int 8 in
  [/\ size example_h_in = 4%N,
      all (fun h_child => size h_child == (4 * 1)%N) example_h_in,
      size identity = (8 * 1)%N /\ all (fun row => size row == (8 * 1)%N) identity
    & let '(h, g_tilde) := assemble_boundary_data example_h_in identity identity in
      size h = (8 * 1)%N /\ size g_tilde = (8 * 1)%N].
Proof.
split; [by [] | by [] | by [] | ].
exact: (@assemble_boundary_data_sizes _ _ 1 example_h_in
          (identity_smatrix int 8) (identity_smatrix int 8) erefl isT erefl isT erefl isT).
Defined.

Lemma take_indices_reindex_r_witness :
  let x : seq int^o := [:: 0; 1; 2; 3; 4; 5; 6; 7] in
  size x = (8 * 1)%N /\ perm_eq (take_indices x (reindex_r 1)) x.
Proof.
split; first by [].
exact: (@take_indices_reindex_r _ _ 1 [:: 0; 1; 2; 3; 4; 5; 6; 7] erefl).
Defined.

Lemma fused_DtN_solves_whole_chunks_only_witness :
  let get_fused_chunksize_2D := fun (_ : nat) (_ : dtype) (_ : nat) => (4%N, 1%N) in
  (0 < 4 <= 6)%N /\
  exists2 chunks,
    _fused_local_solve_and_build_2D get_fused_chunksize_2D 6 6 = ret chunks
    & [/\ flatten chunks = iota 0 (6 - 6 %% 4),
          all (fun chunk => size chunk == 4%N) chunks
        & size chunks = (6 %/ 4)%N].
Proof.
split; first by [].
exact: (@fused_DtN_solves_whole_chunks_only (fun _ _ _ => (4%N, 1%N)) 6 6 isT).
Defined.

Lemma fused_ItI_single_chunk_solves_all_witness :
  let get_fused_chunksize_2D := fun (_ : nat) (_ : dtype) (_ : nat) => (4%N, 1%N) in
  (0 < 4 <= 6)%N /\
  exists2 chunks,
    _fused_local_solve_and_build_2D_ItI get_fused_chunksize_2D 6 6 = ret chunks
    & flatten chunks
      = iota 0 (if (6 < 2 * 4)%N then 6%N else (6 - 6 %% 4)%N).
Proof.
split; first by [].
exact: (@fused_ItI_single_chunk_solves_all (fun _ _ _ => (4%N, 1%N)) 6 6 isT).
Defined.

Lemma get_DtN_from_ItI_maps_impedance_witness :
  let R : 'M[algC]_1 := 0 in
  let eta : algC := 1 in
  R - 1%:M \in unitmx /\
  (let T := get_DtN_from_ItI R eta in
   R *m (T + ('i * eta)%:M) = T - ('i * eta)%:M).
Proof.
have R1_unit : (0 : 'M[algC]_1) - 1%:M \in unitmx.
  by rewrite sub0r -scaleN1r unitmxZ ?unitmx1 // unitrN unitr1.
split; first exact: R1_unit.
exact: (@get_DtN_from_ItI_maps_impedance _ 1 0 1 R1_unit).
Defined.
